(** * css_inliner: a shallow embedding of [css_inliner.py]

    The script moves the rules of the [<style>] blocks of an HTML document
    into [style] attributes.  Its text processing is embedded function by
    function; the two collaborators it drives (the cssutils parser and the
    BeautifulSoup tree with its selector engine) are kept abstract. *)

From Stdlib Require Import String Ascii.
From stdpp Require Import base numbers list sets.

#[local] Set Warnings "-clear-no-such-hyp".

Local Open Scope N_scope.

(** ** Python strings

    A Python [str] is a sequence of code points. *)

Definition char := N.
Definition str := list N.

(** A string literal of the source, as code points. *)
Definition lit (s : string) : str := map N_of_ascii (list_ascii_of_string s).

Definition SEMICOLON : char := 59.
Definition COLON : char := 58.
Definition COMMA : char := 44.
Definition LBRACE : char := 123.
Definition RBRACE : char := 125.
Definition SPACE : char := 32.
Definition LF : char := 10.
Definition CR : char := 13.

(** [str.isspace] on one code point: the characters [str.strip()] removes. *)
Definition isspace (c : char) : bool :=
  ((9 <=? c) && (c <=? 13)) || ((28 <=? c) && (c <=? 32))
  || (c =? 133) || (c =? 160) || (c =? 5760)
  || ((8192 <=? c) && (c <=? 8202))
  || (c =? 8232) || (c =? 8233) || (c =? 8239) || (c =? 8287) || (c =? 12288).

(** The line boundaries of [str.splitlines]. *)
Definition islinebreak (c : char) : bool :=
  ((10 <=? c) && (c <=? 13)) || ((28 <=? c) && (c <=? 30))
  || (c =? 133) || (c =? 8232) || (c =? 8233).

Fixpoint lstrip_by (p : char -> bool) (s : str) : str :=
  match s with
  | [] => []
  | c :: rest => if p c then lstrip_by p rest else s
  end.

Fixpoint rstrip_by (p : char -> bool) (s : str) : str :=
  match s with
  | [] => []
  | c :: rest =>
      match rstrip_by p rest with
      | [] => if p c then [] else [c]
      | kept => c :: kept
      end
  end.

(** [s.strip()] *)
Definition strip (s : str) : str := rstrip_by isspace (lstrip_by isspace s).

(** A text that [strip] empties. *)
Definition blank (s : str) : bool := forallb isspace s.

(** [s.rstrip(";")] *)
Definition rstrip_semicolon (s : str) : str := rstrip_by (N.eqb SEMICOLON) s.

(** [s.splitlines()]: a boundary ends the current line, [\r\n] counts as
    one boundary, and no empty line is produced after a final boundary. *)
Fixpoint splitlines (s : str) : list str :=
  match s with
  | [] => []
  | c :: rest =>
      if islinebreak c then
        match rest with
        | d :: rest' =>
            if (c =? CR) && (d =? LF) then [] :: splitlines rest'
            else [] :: splitlines rest
        | [] => [[]]
        end
      else
        match splitlines rest with
        | [] => [[c]]
        | line :: lines => (c :: line) :: lines
        end
  end.

(** [s.split(sep)] for a one-character separator: always one piece more
    than there are separators. *)
Fixpoint split (sep : char) (s : str) : list str :=
  match s with
  | [] => [[]]
  | c :: rest =>
      if c =? sep then [] :: split sep rest
      else
        match split sep rest with
        | [] => [[c]]
        | piece :: pieces => (c :: piece) :: pieces
        end
  end.

(** [sep.join(items)] *)
Fixpoint join (sep : str) (items : list str) : str :=
  match items with
  | [] => []
  | [x] => x
  | x :: rest => x ++ sep ++ join sep rest
  end.

(** [s.replace(";", "")] *)
Definition remove_semicolons (s : str) : str :=
  List.filter (fun c => negb (c =? SEMICOLON)) s.

(** [":" in s] *)
Definition contains_colon (s : str) : bool := existsb (N.eqb COLON) s.

Definition str_eqb (a b : str) : bool := bool_decide (a = b).

(** ** Python dictionaries

    A [dict] keeps its keys in insertion order, so it is a list of pairs
    with pairwise distinct keys. *)

Section Dict.
Context {K V : Type} `{EqDecision K}.

Definition dict := list (K * V).

(** [d.get(k)] *)
Fixpoint dict_get (k : K) (d : dict) : option V :=
  match d with
  | [] => None
  | (k', v) :: rest => if decide (k = k') then Some v else dict_get k rest
  end.

(** [d[k] = v]: a present key keeps its place, a new key goes last. *)
Fixpoint dict_set (k : K) (v : V) (d : dict) : dict :=
  match d with
  | [] => [(k, v)]
  | (k', v') :: rest =>
      if decide (k = k') then (k', v) :: rest
      else (k', v') :: dict_set k v rest
  end.

(** [d.setdefault(k, v)], as far as it changes [d]. *)
Definition dict_setdefault (k : K) (v : V) (d : dict) : dict :=
  match dict_get k d with
  | Some _ => d
  | None => d ++ [(k, v)]
  end.

(** In-place update of the value stored under [k], as in
    [d[k].append(x)]. *)
Fixpoint dict_alter (f : V -> V) (k : K) (d : dict) : dict :=
  match d with
  | [] => []
  | (k', v) :: rest =>
      if decide (k = k') then (k', f v) :: rest
      else (k', v) :: dict_alter f k rest
  end.

Definition dict_keys (d : dict) : list K := map fst d.
End Dict.

Arguments dict : clear implicits.

Definition CssSelector := str.
Definition CssSelectors := list str.
Definition CssStyleDefinition := list str.
Definition CssInlineStyleDefinition := str.
Definition CssDict := dict CssSelector CssStyleDefinition.
Definition InlineCssDict := dict CssSelectors CssInlineStyleDefinition.

(** ** Exceptions, and runs that write diagnostics *)

Inductive exn :=
| AttributeError
| SelectorSyntaxError
| DOMException.

Inductive result (A : Type) :=
| Ok (a : A)
| Raise (e : exn).
Arguments Ok {A} a.
Arguments Raise {A} e.

Definition result_bind {A B} (r : result A) (f : A -> result B) : result B :=
  match r with
  | Ok a => f a
  | Raise e => Raise e
  end.

(** A computation that may write lines on the diagnostic stream before it
    returns or raises. *)
Definition M (A : Type) : Type := list str * result A.

Definition ret {A} (a : A) : M A := ([], Ok a).
Definition raise {A} (e : exn) : M A := ([], Raise e).
Definition tell (lines : list str) : M unit := (lines, Ok tt).
Definition lift {A} (r : result A) : M A := ([], r).

Definition bind {A B} (m : M A) (f : A -> M B) : M B :=
  match m with
  | (w, Ok a) => let (w', r) := f a in (w ++ w', r)
  | (w, Raise e) => (w, Raise e)
  end.

Notation "'let*' x ':=' m 'in' k" := (bind m (fun x => k))
  (at level 10, x pattern, m at level 100, k at level 200).

(** ** The command line *)

Record InlineCSSArgs := {
  input_html : str;
  output_html : str;
  silent : bool;
}.

Record ProcessedDeclarations := {
  successful_declaration : CssDict;
  failed_declaration : list str;
}.

(** The two levels of Python's [logging] module that [main] uses:
    [CRITICAL = 50] and [FATAL = CRITICAL]. *)
Definition logging_CRITICAL : Z := 50.
Definition logging_FATAL : Z := logging_CRITICAL.

(** ** The cssutils collaborator

    A parsed sheet is a sequence of rule objects; reading [selectorText]
    or [style.cssText] of a rule that has none raises [AttributeError],
    which is what [None] stands for here. *)

Record CSSRule := {
  selectorText : option str;
  style_cssText : option str;
}.

Inductive parse_outcome :=
| Parsed (rules : list CSSRule)
| RaisesSyntaxErr
| RaisesOther (e : exn).

(** [parser.parseString(text)] under the logger level in force: what it
    returns or raises, and the lines its logger writes. *)
Record CSSParser := {
  parseString : Z -> str -> parse_outcome * list str;
}.

(** ** Text functions of the script *)

Definition _add_closing_tag (declaration : str) : str :=
  strip (declaration ++ [RBRACE]).

Definition format_css_content_for_inline (css_text : str) : str :=
  let css_content_items := splitlines (strip css_text) in
  let formatted_css_items :=
    map (fun item => remove_semicolons item ++ [SEMICOLON]) css_content_items in
  join [SPACE] formatted_css_items.

(** The declaration formatting in the words of the specification: split
    into lines, strip each line, remove its semicolons, append one, join
    with a space. *)
Definition format_css_content_as_specified (css_text : str) : str :=
  join [SPACE]
    (map (fun line => remove_semicolons (strip line) ++ [SEMICOLON])
       (splitlines css_text)).

(** ** The Block Splitter *)

(** What splitting one style block's text contributes. *)
Definition fragments_of_text (text : str) : list str :=
  List.filter (fun x => negb (str_eqb (strip x) [RBRACE]))
    (map _add_closing_tag (split RBRACE text)).

(** ** The Rule Parser and Declaration Grouper *)

(** The body of the loop over the rules of one parsed sheet: both
    attributes are read before the record is touched, so a rule lacking
    either leaves it as it was. *)
Definition record_rule (css_declarations : CssDict) (css_dict : CSSRule)
  : CssDict :=
  match selectorText css_dict, style_cssText css_dict with
  | Some css_selector, Some cssText =>
      let formatted_css_items := format_css_content_for_inline cssText in
      dict_alter (fun items => items ++ [formatted_css_items]) css_selector
        (dict_setdefault css_selector [] css_declarations)
  | _, _ => css_declarations
  end.

Fixpoint process_loop (parser : CSSParser) (level : Z)
    (declarations : list str) (processed : ProcessedDeclarations)
  : M ProcessedDeclarations :=
  match declarations with
  | [] => ret processed
  | declaration :: rest =>
      let (outcome, lines) := parseString parser level declaration in
      let* _ := tell lines in
      match outcome with
      | RaisesSyntaxErr =>
          process_loop parser level rest
            {| successful_declaration := successful_declaration processed;
               failed_declaration :=
                 failed_declaration processed ++ [declaration] |}
      | RaisesOther e => raise e
      | Parsed parsed_css =>
          process_loop parser level rest
            {| successful_declaration :=
                 fold_left record_rule parsed_css
                   (successful_declaration processed);
               failed_declaration := failed_declaration processed |}
      end
  end.

Definition process_css_declarations (parser : CSSParser) (level : Z)
    (declarations : list str) : M ProcessedDeclarations :=
  process_loop parser level declarations
    {| successful_declaration := []; failed_declaration := [] |}.

(** ** The Selector Resolver *)

Definition split_selectors_of (selector : str) : CssSelectors :=
  map strip (split COMMA selector).

Definition inline_css_declarations (css_declarations : CssDict)
  : InlineCssDict :=
  fold_left
    (fun result '(selector, declarations) =>
       dict_set (split_selectors_of selector) (join [SPACE] declarations)
         result)
    css_declarations [].

Definition pseudo_selectors_of (selectors : CssSelectors) : CssSelectors :=
  List.filter contains_colon selectors.

Definition no_pseudo_selectors_of (selectors : CssSelectors) : CssSelectors :=
  List.filter (fun x => negb (contains_colon x)) selectors.

(** ** The Inline Applier: merging into one element's attribute *)

(** What [item.get("style")] can be besides [None]. *)
Inductive attr_value :=
| AttrStr (s : str)
| AttrList (tokens : list str).

(** Python's truth value of [item.get("style")]. *)
Definition truthy (previous_style_attr : option attr_value) : bool :=
  match previous_style_attr with
  | None => false
  | Some (AttrStr s) => negb (str_eqb s [])
  | Some (AttrList tokens) => negb (Nat.eqb (length tokens) 0)
  end.

Definition new_style_attr (previous_style_attr : option attr_value)
    (inline_style : str) : str :=
  if negb (truthy previous_style_attr) then rstrip_semicolon inline_style
  else
    match previous_style_attr with
    | Some (AttrList tokens) =>
        rstrip_semicolon (join (lit "; ") (tokens ++ [inline_style]))
    | Some (AttrStr s) =>
        rstrip_semicolon (join (lit "; ") [s; inline_style])
    | None => []
    end.

(** ** The BeautifulSoup collaborator

    The elements the parser built from the input file are kept in
    document order.  Of an element the script reads its name, its
    [style] attribute and its [.string]; everything else about it (other
    attributes, its place in the tree) is the payload [node], which only
    the selector engine looks at.

    [tag_string] is the [.string] of the element in the parsed input.
    The script reads it there only, in the splitter, before it changes
    the tree; how extracting and appending elements changes the [.string]
    of their ancestors is not tracked. *)

Section Document.
Variable Node : Type.

Record Tag := {
  name : str;
  style : option attr_value;
  tag_string : option str;
  node : Node;
}.

(** The tree holds two kinds of elements: [tags], the elements built
    from the input file that are still in the tree, and [head_appended],
    the elements appended since as last children of the head.  The
    script appends [style] elements only, and their children are texts
    only, so each appended element is given by the sequence of its text
    children.  A document just parsed has appended none. *)
Record BeautifulSoup := {
  tags : list Tag;
  head_appended : list (list str);
}.

(** The selector engine behind [soup.select]: it rejects some selector
    texts and decides, for the others, which elements match. *)
Variable selector_ok : str -> bool.
Variable matches : str -> BeautifulSoup -> nat -> bool.

Definition select (soup : BeautifulSoup) (selector : str)
  : result (list nat) :=
  if selector_ok selector then
    Ok (List.filter (matches selector soup) (seq 0 (length (tags soup))))
  else Raise SelectorSyntaxError.

Definition is_named (tag_name : string) (tag : Tag) : bool :=
  str_eqb (name tag) (lit tag_name).

(** [soup.find_all("style")] *)
Definition find_all_style (soup : BeautifulSoup) : list Tag :=
  List.filter (is_named "style") (tags soup).

(** The truth value of [soup.head]. *)
Definition has_head (soup : BeautifulSoup) : bool :=
  existsb (is_named "head") (tags soup).

(** The list comprehension of [divide_declarations_from_style_tags]:
    [tag.string.split] raises when [tag.string] is [None]. *)
Fixpoint individual_declerations (style_tags : list Tag)
  : result (list (list str)) :=
  match style_tags with
  | [] => Ok []
  | tag :: rest =>
      match tag_string tag with
      | None => Raise AttributeError
      | Some text =>
          result_bind (individual_declerations rest) (fun pieces =>
            Ok (map _add_closing_tag (split RBRACE text) :: pieces))
      end
  end.

Definition divide_declarations_from_style_tags (style_tags : list Tag)
  : result (list str) :=
  result_bind (individual_declerations style_tags) (fun pieces =>
    Ok (List.filter (fun x => negb (str_eqb (strip x) [RBRACE]))
          (concat pieces))).

(** [item["style"] = value] *)
Definition set_style (item : Tag) (value : str) : Tag :=
  {| name := name item;
     style := Some (AttrStr value);
     tag_string := tag_string item;
     node := node item |}.

(** The body of the loop over the matched elements; [select] returns
    positions of the document, so the lookup finds the element. *)
Definition apply_to_item (inline_style : str) (soup : BeautifulSoup)
    (i : nat) : BeautifulSoup :=
  match tags soup !! i with
  | None => soup
  | Some item =>
      let previous_style_attr := style item in
      let updated :=
        set_style item (new_style_attr previous_style_attr inline_style) in
      {| tags := <[i := updated]> (tags soup);
         head_appended := head_appended soup |}
  end.

Fixpoint apply_selectors_to_elements_as_inline_css (soup : BeautifulSoup)
    (no_pseudo_selectors : list str) (inline_style : str)
  : result BeautifulSoup :=
  match no_pseudo_selectors with
  | [] => Ok soup
  | selector :: rest =>
      result_bind (select soup selector) (fun found_styled_items =>
        apply_selectors_to_elements_as_inline_css
          (fold_left (apply_to_item inline_style) found_styled_items soup)
          rest inline_style)
  end.

(** [_remove_style_tags_from_soup]: the extracted tags are those
    [find_all("style")] returned, that is, the elements named [style]. *)
Definition _remove_style_tags_from_soup (soup : BeautifulSoup)
  : BeautifulSoup :=
  {| tags := List.filter (fun tag => negb (is_named "style" tag)) (tags soup);
     head_appended := head_appended soup |}.

(** The new [style] element gets one text child for each failed
    fragment and becomes the last child of the head, when there is one:
    it is an element of the written tree, kept in [head_appended]. *)
Definition insert_unprocessed_declarations (soup : BeautifulSoup)
    (failed_declaration : list str) : BeautifulSoup :=
  let leftover_style_tag := failed_declaration in
  if has_head soup then
    {| tags := tags soup;
       head_appended := head_appended soup ++ [leftover_style_tag] |}
  else soup.

(** The body of the loop of [main] over the resolved groups. *)
Definition resolve_group
    (state : BeautifulSoup * dict CssSelectors CssInlineStyleDefinition)
    (entry : CssSelectors * CssInlineStyleDefinition)
  : result (BeautifulSoup * dict CssSelectors CssInlineStyleDefinition) :=
  let (soup, pseudo_style_declarations) := state in
  let (selectors, inline_style) := entry in
  let pseudo_selectors := pseudo_selectors_of selectors in
  let pseudo_style_declarations :=
    dict_setdefault pseudo_selectors inline_style pseudo_style_declarations in
  let no_pseudo_selectors := no_pseudo_selectors_of selectors in
  match no_pseudo_selectors with
  | [] => Ok (soup, pseudo_style_declarations)
  | _ =>
      result_bind
        (apply_selectors_to_elements_as_inline_css soup no_pseudo_selectors
           inline_style)
        (fun soup' => Ok (soup', pseudo_style_declarations))
  end.

Fixpoint resolve_groups
    (inlined_css_declarations : InlineCssDict)
    (state : BeautifulSoup * dict CssSelectors CssInlineStyleDefinition)
  : result (BeautifulSoup * dict CssSelectors CssInlineStyleDefinition) :=
  match inlined_css_declarations with
  | [] => Ok state
  | entry :: rest =>
      result_bind (resolve_group state entry) (resolve_groups rest)
  end.

(** What one run leaves behind: the level the cssutils logger was set
    to, the lines written on the diagnostic stream, and either the
    exception that ended the run or the path and document written. *)
Record Run := {
  logger_level : Z;
  diagnostics : list str;
  written : result (str * BeautifulSoup);
}.

(** [main], from the point where [get_soup_from_html_file] has returned
    [soup] for [args.input_html]. *)
Definition main (parser : CSSParser) (args : InlineCSSArgs)
    (soup : BeautifulSoup) : Run :=
  let level := if silent args then logging_CRITICAL else logging_FATAL in
  let style_tags := find_all_style soup in
  let run :=
    let* declarations :=
      lift (divide_declarations_from_style_tags style_tags) in
    let* processed_declarations :=
      process_css_declarations parser level declarations in
    let inlined_css_declarations :=
      inline_css_declarations
        (successful_declaration processed_declarations) in
    let* state :=
      lift (resolve_groups inlined_css_declarations (soup, [])) in
    let soup := _remove_style_tags_from_soup (fst state) in
    let soup :=
      insert_unprocessed_declarations soup
        (failed_declaration processed_declarations) in
    ret (output_html args, soup) in
  {| logger_level := level; diagnostics := fst run; written := snd run |}.
End Document.

Arguments name {Node} _.
Arguments style {Node} _.
Arguments tag_string {Node} _.
Arguments node {Node} _.
Arguments tags {Node} _.
Arguments head_appended {Node} _.
Arguments logger_level {Node} _.
Arguments diagnostics {Node} _.
Arguments written {Node} _.
Arguments select {Node} selector_ok matches soup selector.
Arguments is_named {Node} tag_name tag.
Arguments find_all_style {Node} soup.
Arguments has_head {Node} soup.
Arguments individual_declerations {Node} style_tags.
Arguments divide_declarations_from_style_tags {Node} style_tags.
Arguments set_style {Node} item value.
Arguments apply_to_item {Node} inline_style soup i.
Arguments apply_selectors_to_elements_as_inline_css {Node} selector_ok matches
  soup no_pseudo_selectors inline_style.
Arguments _remove_style_tags_from_soup {Node} soup.
Arguments insert_unprocessed_declarations {Node} soup failed_declaration.
Arguments resolve_group {Node} selector_ok matches state entry.
Arguments resolve_groups {Node} selector_ok matches inlined_css_declarations
  state.
Arguments main {Node} selector_ok matches parser args soup.

(** ** What the Declaration Record is to hold

    The rules a run gets to record, as (selector text, formatted
    declaration) pairs in encounter order, and the fragments it sets
    aside. *)

Definition rule_entry (css_dict : CSSRule) : option (str * str) :=
  match selectorText css_dict, style_cssText css_dict with
  | Some css_selector, Some cssText =>
      Some (css_selector, format_css_content_for_inline cssText)
  | _, _ => None
  end.

(** Recording one pair: [setdefault], then [append]. *)
Definition add_entry (css_declarations : CssDict) (entry : str * str)
  : CssDict :=
  dict_alter (fun items => items ++ [snd entry]) (fst entry)
    (dict_setdefault (fst entry) [] css_declarations).

Fixpoint recorded_entries (parser : CSSParser) (level : Z)
    (declarations : list str) : list (str * str) :=
  match declarations with
  | [] => []
  | declaration :: rest =>
      match fst (parseString parser level declaration) with
      | Parsed parsed_css => omap rule_entry parsed_css
      | _ => []
      end ++ recorded_entries parser level rest
  end.

Definition is_syntax_error (outcome : parse_outcome) : bool :=
  match outcome with
  | RaisesSyntaxErr => true
  | _ => false
  end.

Definition failed_fragments (parser : CSSParser) (level : Z)
    (declarations : list str) : list str :=
  List.filter
    (fun declaration =>
       is_syntax_error (fst (parseString parser level declaration)))
    declarations.

(** No parse of the run raises anything but the syntax error. *)
Definition no_other_exception (parser : CSSParser) (level : Z)
    (declarations : list str) : Prop :=
  Forall (fun d => ∀ e, fst (parseString parser level d) ≠ RaisesOther e)
    declarations.

(** The distinct members of a sequence, each at its first occurrence. *)
Fixpoint first_occurrences (keys : list str) : list str :=
  match keys with
  | [] => []
  | k :: rest =>
      k :: List.filter (fun k' => negb (str_eqb k' k)) (first_occurrences rest)
  end.

(** The second components of the pairs whose first component is [k]. *)
Definition values_for (k : str) (entries : list (str * str)) : list str :=
  map snd (List.filter (fun entry => str_eqb (fst entry) k) entries).

Definition result_map {A B} (f : A -> B) (r : result A) : result B :=
  match r with
  | Ok a => Ok (f a)
  | Raise e => Raise e
  end.

(** What the Selector Resolver makes of one entry of the record: the
    trimmed pieces of the key and the joined declarations. *)
Definition resolved (entry : CssSelector * CssStyleDefinition)
  : CssSelectors * CssInlineStyleDefinition :=
  (map strip (split COMMA (fst entry)), join [SPACE] (snd entry)).

(** The top-level rules of a style-sheet text, in the words of the
    specification: a rule opens with a [{] outside any block and is
    terminated by the [}] that closes this block; [depth] counts the
    blocks that are open. *)
Fixpoint top_level_rules_from (depth : nat) (text : str) : nat :=
  match text with
  | [] => 0
  | c :: rest =>
      if c =? LBRACE then top_level_rules_from (S depth) rest
      else if c =? RBRACE then
        match depth with
        | O => top_level_rules_from 0 rest
        | S O => S (top_level_rules_from 0 rest)
        | S (S d) => top_level_rules_from (S d) rest
        end
      else top_level_rules_from depth rest
  end.

Definition top_level_rules (text : str) : nat := top_level_rules_from 0 text.


(** The merge of the Inline Applier in the words of the specification:
    three cases, by the shape of the attribute alone. *)
Definition new_style_attr_as_specified
    (previous_style_attr : option attr_value) (inline_style : str) : str :=
  match previous_style_attr with
  | None => rstrip_semicolon inline_style
  | Some (AttrStr s) => rstrip_semicolon (join (lit "; ") [s; inline_style])
  | Some (AttrList tokens) =>
      rstrip_semicolon (join (lit "; ") (tokens ++ [inline_style]))
  end.

(** Two states of a document with the same elements by name and the same
    blocks appended to the head: they differ in [style] attributes only. *)
Definition same_frame {Node} (soup soup' : BeautifulSoup Node) : Prop :=
  map name (tags soup') = map name (tags soup)
  ∧ head_appended soup' = head_appended soup.

(** An element and what the Inline Applier may make of it: the same
    name, string and payload, and a [style] attribute that is the same or
    has become a string. *)
Definition restyled {Node} (tag tag' : Tag Node) : Prop :=
  name tag' = name tag ∧ tag_string tag' = tag_string tag
  ∧ node tag' = node tag
  ∧ (style tag' = style tag ∨ ∃ value, style tag' = Some (AttrStr value)).

(** The text of a [style] attribute that is present. *)
Definition existing_text (value : attr_value) : str :=
  match value with
  | AttrStr s => s
  | AttrList tokens => join (lit "; ") tokens
  end.

(** ** Stand-ins for the collaborators, to run the script on examples *)

(** A parser of single rules [selector{declarations}]: a text with
    exactly one opening brace, a non-blank selector and a non-blank
    declaration block is one rule; every other text is a syntax error.
    It writes no diagnostics. *)
Definition demo_parseString (level : Z) (text : str)
  : parse_outcome * list str :=
  match split LBRACE text with
  | [selector; block] =>
      let body := strip (rstrip_by (N.eqb RBRACE) block) in
      if blank selector || blank body then (RaisesSyntaxErr, [])
      else (Parsed [ {| selectorText := Some (strip selector);
                        style_cssText := Some body |} ], [])
  | _ => (RaisesSyntaxErr, [])
  end.

Definition demo_parser : CSSParser := {| parseString := demo_parseString |}.

(** A parser that also knows two more kinds of text: a text starting
    with [@] is a sheet of one rule without selector text, reported on
    the diagnostic stream at levels up to [WARNING = 30]; a text starting
    with [!] makes the parse raise an exception other than the syntax
    error.  Every other text goes to [demo_parseString]. *)
Definition AT_SIGN : char := 64.
Definition BANG : char := 33.

Definition picky_parseString (level : Z) (text : str)
  : parse_outcome * list str :=
  match text with
  | c :: _ =>
      if c =? AT_SIGN then
        (Parsed [ {| selectorText := None; style_cssText := None |} ],
         if (level <=? 30)%Z then [lit "WARNING at-rule"] else [])
      else if c =? BANG then (RaisesOther DOMException, [lit "ERROR"])
      else demo_parseString level text
  | [] => demo_parseString level text
  end.

Definition picky_parser : CSSParser := {| parseString := picky_parseString |}.

(** A parser that writes a declaration block the way cssutils
    serialises it: every declaration as [name: value], with one blank
    after the colon, and the declarations separated by a semicolon and a
    line feed.  A text with exactly one opening brace, a non-blank
    selector and one or more declarations [name:value] is one rule;
    every other text is a syntax error.  It writes no diagnostics. *)
Definition serialise_declaration (declaration : str) : option str :=
  match split COLON declaration with
  | [property; value] =>
      if blank property || blank value then None
      else Some (strip property ++ lit ": " ++ strip value)
  | _ => None
  end.

Fixpoint serialise_declarations (declarations : list str)
  : option (list str) :=
  match declarations with
  | [] => Some []
  | declaration :: rest =>
      match serialise_declaration declaration,
            serialise_declarations rest with
      | Some d, Some ds => Some (d :: ds)
      | _, _ => None
      end
  end.

Definition serialising_parseString (level : Z) (text : str)
  : parse_outcome * list str :=
  match split LBRACE text with
  | [selector; block] =>
      let declarations :=
        List.filter (fun d => negb (blank d))
          (split SEMICOLON (rstrip_by (N.eqb RBRACE) block)) in
      match serialise_declarations declarations with
      | Some (d :: ds) =>
          if blank selector then (RaisesSyntaxErr, [])
          else (Parsed [ {| selectorText := Some (strip selector);
                            style_cssText :=
                              Some (join [SEMICOLON; LF] (d :: ds)) |} ],
                [])
      | _ => (RaisesSyntaxErr, [])
      end
  | _ => (RaisesSyntaxErr, [])
  end.

Definition serialising_parser : CSSParser :=
  {| parseString := serialising_parseString |}.

(** A selector engine for type selectors: every selector text is
    accepted and matches the elements of that name. *)
Definition any_selector (selector : str) : bool := true.



Definition matches_by_name (selector : str) (soup : BeautifulSoup unit)
    (i : nat) : bool :=
  match tags soup !! i with
  | Some tag => str_eqb (name tag) selector
  | None => false
  end.

Definition element (tag_name : string) (style_attr : option attr_value)
    (text : option str) : Tag unit :=
  {| name := lit tag_name; style := style_attr; tag_string := text;
     node := tt |}.

Definition document (elements : list (Tag unit)) : BeautifulSoup unit :=
  {| tags := elements; head_appended := [] |}.

Definition demo_args (quiet : bool) : InlineCSSArgs :=
  {| input_html := lit "in.html"; output_html := lit "out.html";
     silent := quiet |}.

(** * Properties *)

(** Decidable facts about given texts, by evaluation. *)
Ltac by_computation := refine (bool_decide_unpack _ _); vm_compute; exact I.


(** ** Strings *)

Lemma remove_semicolons_clean (s : str) : SEMICOLON ∉ remove_semicolons s.
Proof.
  unfold remove_semicolons. rewrite list_elem_of_In, filter_In.
  intros [_ H]. rewrite N.eqb_refl in H. discriminate.
Qed.

Lemma remove_semicolons_subset (s : str) (c : char) :
  c ∈ remove_semicolons s → c ∈ s.
Proof.
  unfold remove_semicolons. rewrite !list_elem_of_In, filter_In. tauto.
Qed.

(** [splitlines] recurses one or two characters further, so its
    properties go by induction on a bound of the length. *)
Lemma splitlines_chars_bounded (n : nat) (s line : str) (c : char) :
  (length s ≤ n)%nat →
  line ∈ splitlines s → c ∈ line → c ∈ s ∧ islinebreak c = false.
Proof.
  revert s line. induction n as [|n IH]; intros s line Hlen Hline Hc.
  - destruct s; simpl in *; [set_solver | lia].
  - destruct s as [|a rest]; simpl in *; [set_solver|].
    destruct (islinebreak a) eqn:Ha.
    + destruct rest as [|d rest'].
      * apply list_elem_of_singleton in Hline. subst. set_solver.
      * destruct ((a =? CR) && (d =? LF)).
        -- apply elem_of_cons in Hline as [->|Hline]; [set_solver|].
           destruct (IH rest' line ltac:(simpl in *; lia) Hline Hc).
           split; [set_solver|done].
        -- apply elem_of_cons in Hline as [->|Hline]; [set_solver|].
           destruct (IH (d :: rest') line ltac:(simpl in *; lia) Hline Hc).
           split; [set_solver|done].
    + destruct (splitlines rest) as [|l ls] eqn:Hs.
      * apply list_elem_of_singleton in Hline. subst.
        apply list_elem_of_singleton in Hc. subst. split; [set_solver|done].
      * apply elem_of_cons in Hline as [->|Hline].
        -- apply elem_of_cons in Hc as [->|Hc]; [split; [set_solver|done]|].
           destruct (IH rest l ltac:(lia) ltac:(rewrite Hs; set_solver) Hc).
           split; [set_solver|done].
        -- destruct (IH rest line ltac:(lia) ltac:(rewrite Hs; set_solver) Hc).
           split; [set_solver|done].
Qed.

Lemma splitlines_chars (s line : str) (c : char) :
  line ∈ splitlines s → c ∈ line → c ∈ s ∧ islinebreak c = false.
Proof. apply (splitlines_chars_bounded (length s)). lia. Qed.

Lemma join_chars (sep : str) (items : list str) (c : char) :
  c ∈ join sep items → c ∈ sep ∨ ∃ item, item ∈ items ∧ c ∈ item.
Proof.
  induction items as [|x [|y rest] IH]; simpl; intros H.
  - set_solver.
  - right. exists x. set_solver.
  - rewrite !elem_of_app in H. destruct H as [H|[H|H]].
    + right. exists x. set_solver.
    + by left.
    + destruct (IH H) as [?|(item & ? & ?)]; [by left|].
      right. exists item. set_solver.
Qed.

(** ** C2: declaration formatting *)

(** C2 (as amended).  [format_css_content_for_inline] strips the text as a
    whole, splits it into lines, removes every semicolon from each line and
    appends one, and joins the lines with one space; the lines are not
    stripped one by one.  Every formatted line ends in a semicolon and
    has no other, and the result holds no line boundary. *)
Theorem format_css_content_for_inline_lines (css_text : str) :
  let items :=
    map (fun line => remove_semicolons line ++ [SEMICOLON])
      (splitlines (strip css_text)) in
  format_css_content_for_inline css_text = join [SPACE] items
  ∧ Forall (fun item =>
      ∃ body, item = body ++ [SEMICOLON] ∧ (SEMICOLON ∉ body)
              ∧ (∀ c, c ∈ body → islinebreak c = false)) items
  ∧ (∀ c, c ∈ format_css_content_for_inline css_text → islinebreak c = false).
Proof.
  intros items. split; [reflexivity|].
  assert (Hitems : Forall (fun item =>
      ∃ body, item = body ++ [SEMICOLON] ∧ (SEMICOLON ∉ body)
              ∧ (∀ c, c ∈ body → islinebreak c = false)) items).
  { apply Forall_forall. intros item Hin.
    apply list_elem_of_fmap in Hin as (line & -> & Hline).
    exists (remove_semicolons line). split; [done|].
    split; [apply remove_semicolons_clean|].
    intros c Hc. apply remove_semicolons_subset in Hc.
    by destruct (splitlines_chars _ _ _ Hline Hc). }
  split; [done|].
  intros c Hc. unfold format_css_content_for_inline in Hc. fold items in Hc.
  apply join_chars in Hc as [Hc|(item & Hitem & Hc)].
  - apply list_elem_of_singleton in Hc. by subst.
  - rewrite Forall_forall in Hitems.
    destruct (Hitems _ Hitem) as (body & -> & _ & Hbody).
    apply elem_of_app in Hc as [Hc|Hc]; [by apply Hbody|].
    apply list_elem_of_singleton in Hc. by subst.
Qed.

(** C2 (as stated) fails: on the two lines [a] and [ b] the script keeps
    the blank that starts the second line, the formatting of the
    specification does not. *)
Lemma format_css_content_for_inline_keeps_inner_blanks :
  format_css_content_for_inline (lit "a" ++ [LF] ++ lit " b")
  ≠ format_css_content_as_specified (lit "a" ++ [LF] ++ lit " b").
Proof. vm_compute. discriminate. Qed.

(** ** Stripping and splitting *)

Lemma lstrip_by_app_keep (p : char → bool) (s : str) (c : char) :
  p c = false → lstrip_by p (s ++ [c]) = lstrip_by p s ++ [c].
Proof.
  intros Hc. induction s as [|a s IH]; simpl.
  - by rewrite Hc.
  - by destruct (p a).
Qed.

Lemma rstrip_by_app_keep (p : char → bool) (s : str) (c : char) :
  p c = false → rstrip_by p (s ++ [c]) = s ++ [c].
Proof.
  intros Hc. induction s as [|a s IH]; simpl.
  - by rewrite Hc.
  - rewrite IH. by destruct s.
Qed.

Lemma rstrip_by_app_drop (p : char → bool) (s : str) (c : char) :
  p c = true → rstrip_by p (s ++ [c]) = rstrip_by p s.
Proof.
  intros Hc. induction s as [|a s IH]; simpl.
  - by rewrite Hc.
  - by rewrite IH.
Qed.

Lemma lstrip_by_idemp (p : char → bool) (s : str) :
  lstrip_by p (lstrip_by p s) = lstrip_by p s.
Proof.
  induction s as [|a s IH]; simpl; [done|].
  destruct (p a) eqn:Ha; [done|]. simpl. by rewrite Ha.
Qed.

Lemma lstrip_blank (s : str) : lstrip_by isspace s = [] ↔ blank s = true.
Proof.
  induction s as [|a s IH]; simpl; [done|].
  destruct (isspace a); simpl; [done|]. split; discriminate.
Qed.

Lemma strip_closed (r : str) :
  strip (r ++ [RBRACE]) = lstrip_by isspace r ++ [RBRACE].
Proof.
  unfold strip. rewrite lstrip_by_app_keep by reflexivity.
  by rewrite rstrip_by_app_keep.
Qed.

Lemma add_closing_tag_kept (r : str) :
  negb (str_eqb (strip (_add_closing_tag r)) [RBRACE]) = negb (blank r).
Proof.
  unfold _add_closing_tag. rewrite !strip_closed, lstrip_by_idemp.
  f_equal. unfold str_eqb. destruct (blank r) eqn:Hb.
  - apply lstrip_blank in Hb. rewrite Hb. by apply bool_decide_eq_true.
  - apply bool_decide_eq_false. intros Heq.
    destruct (lstrip_by isspace r) as [|a l] eqn:Hl.
    + apply lstrip_blank in Hl. congruence.
    + destruct l; discriminate.
Qed.

Lemma split_no_sep (sep : char) (s : str) : sep ∉ s → split sep s = [s].
Proof.
  induction s as [|a s IH]; simpl; intros Hs; [done|].
  apply not_elem_of_cons in Hs as [Ha Hs].
  destruct (N.eqb_spec a sep); [congruence|]. by rewrite IH.
Qed.

Lemma split_app_sep (sep : char) (r rest : str) :
  sep ∉ r → split sep (r ++ sep :: rest) = r :: split sep rest.
Proof.
  induction r as [|a r IH]; simpl; intros Hr.
  - by rewrite N.eqb_refl.
  - apply not_elem_of_cons in Hr as [Ha Hr].
    destruct (N.eqb_spec a sep); [congruence|]. by rewrite IH.
Qed.

Lemma split_closed_pieces (sep : char) (bodies : list str) (trailing : str) :
  Forall (fun r => sep ∉ r) bodies → sep ∉ trailing →
  split sep (concat (map (fun r => r ++ [sep]) bodies) ++ trailing)
  = bodies ++ [trailing].
Proof.
  intros Hb Ht. induction Hb as [|r bodies Hr Hb IH]; simpl.
  - by apply split_no_sep.
  - rewrite <- !app_assoc. simpl. rewrite split_app_sep by done. by rewrite IH.
Qed.

Lemma fragments_of_pieces (bodies : list str) (trailing : str) :
  Forall (fun r => RBRACE ∉ r) bodies → RBRACE ∉ trailing →
  fragments_of_text
    (concat (map (fun r => r ++ [RBRACE]) bodies) ++ trailing)
  = map (fun r => lstrip_by isspace r ++ [RBRACE])
      (List.filter (fun r => negb (blank r)) (bodies ++ [trailing])).
Proof.
  intros Hb Ht. unfold fragments_of_text.
  rewrite split_closed_pieces by done.
  induction (bodies ++ [trailing]) as [|r l IH]; simpl; [done|].
  rewrite add_closing_tag_kept. destruct (blank r); simpl; [done|].
  rewrite IH. unfold _add_closing_tag. by rewrite strip_closed.
Qed.

(** ** C4: the Block Splitter *)

Lemma blank_no_closing_brace (s : str) : blank s = true → RBRACE ∉ s.
Proof.
  unfold blank. rewrite forallb_forall. intros Hs Hin.
  apply list_elem_of_In in Hin. by apply Hs in Hin.
Qed.

Lemma filter_concat {A} (p : A → bool) (ls : list (list A)) :
  List.filter p (concat ls) = concat (map (List.filter p) ls).
Proof.
  induction ls as [|l ls IH]; simpl; [done|]. by rewrite List.filter_app, IH.
Qed.

Lemma top_level_rules_from_app (depth : nat) (r rest : str) :
  RBRACE ∉ r →
  top_level_rules_from depth (r ++ rest)
  = top_level_rules_from
      (depth + length (List.filter (N.eqb LBRACE) r)) rest.
Proof.
  revert depth. induction r as [|c r IH]; intros depth Hr.
  - simpl. by rewrite Nat.add_0_r.
  - apply not_elem_of_cons in Hr as [Hc Hr].
    cbn [app top_level_rules_from List.filter].
    rewrite (N.eqb_sym LBRACE c).
    destruct (N.eqb_spec c LBRACE) as [->|_].
    + rewrite IH by done. f_equal. simpl. lia.
    + destruct (N.eqb_spec c RBRACE); [congruence|]. by apply IH.
Qed.

Lemma top_level_rules_from_blank (text : str) :
  blank text = true → top_level_rules_from 0 text = 0%nat.
Proof.
  induction text as [|c text IH]; [done|].
  cbn [blank forallb top_level_rules_from].
  intros [Hc Ht]%andb_true_iff.
  destruct (N.eqb_spec c LBRACE) as [->|_]; [by vm_compute in Hc|].
  destruct (N.eqb_spec c RBRACE) as [->|_]; [by vm_compute in Hc|].
  by apply IH.
Qed.

Lemma top_level_rules_of_pieces (bodies : list str) (trailing : str) :
  Forall (fun r => (RBRACE ∉ r)
                   ∧ length (List.filter (N.eqb LBRACE) r) = 1%nat) bodies →
  blank trailing = true →
  top_level_rules (concat (map (fun r => r ++ [RBRACE]) bodies) ++ trailing)
  = length bodies.
Proof.
  intros Hb Ht. unfold top_level_rules.
  induction Hb as [|r bodies [Hr Hopen] _ IH].
  - by apply top_level_rules_from_blank.
  - cbn [map concat length]. rewrite <- !app_assoc.
    rewrite top_level_rules_from_app, Hopen by done.
    cbn [app Nat.add top_level_rules_from].
    change (RBRACE =? LBRACE) with false. rewrite N.eqb_refl.
    by rewrite IH.
Qed.

Section Splitter.
Context {Node : Type}.
Implicit Types style_tags : list (Tag Node).

Lemma individual_declerations_of_texts style_tags (texts : list str) :
  map tag_string style_tags = map Some texts →
  individual_declerations style_tags
  = Ok (map (fun text => map _add_closing_tag (split RBRACE text)) texts).
Proof.
  revert texts. induction style_tags as [|tag style_tags IH];
    intros [|text texts] Heq; simpl in *; try done.
  injection Heq as Htag Hrest. rewrite Htag, (IH texts Hrest). done.
Qed.

Lemma divide_of_texts style_tags (texts : list str) :
  map tag_string style_tags = map Some texts →
  divide_declarations_from_style_tags style_tags
  = Ok (concat (map fragments_of_text texts)).
Proof.
  intros Heq. unfold divide_declarations_from_style_tags.
  rewrite (individual_declerations_of_texts _ _ Heq). simpl.
  by rewrite filter_concat, map_map.
Qed.

(** C4 (as amended).  The Block Splitter splits each block's text on
    the closing brace, appends a brace to each piece and strips the
    result, which removes the blanks in front of the piece and leaves
    those before the brace, drops the pieces that are then a lone brace,
    and concatenates what is left in input order.  A text made of [n]
    rules that hold no closing brace but their last character and some
    non-blank before it, with only blanks after the last rule, gives [n]
    non-empty fragments that end in a brace; when each of these rules
    opens one block, they are the [n] top-level rules of the text.  A
    text without closing brace gives one fragment, the text without the
    blanks in front of it and a brace, unless it is blank: then it gives
    none. *)
Theorem divide_declarations_from_style_tags_fragments
    style_tags (texts : list str) :
  map tag_string style_tags = map Some texts →
  divide_declarations_from_style_tags style_tags
  = Ok (concat (map fragments_of_text texts))
  ∧ (∀ (bodies : list str) (trailing : str),
       Forall (fun r => (RBRACE ∉ r) ∧ blank r = false) bodies →
       blank trailing = true →
       let fragments :=
         fragments_of_text
           (concat (map (fun r => r ++ [RBRACE]) bodies) ++ trailing) in
       fragments = map (fun r => lstrip_by isspace r ++ [RBRACE]) bodies
       ∧ length fragments = length bodies
       ∧ Forall (fun f => ∃ b, b ≠ [] ∧ f = b ++ [RBRACE]) fragments
       ∧ (Forall (fun r => length (List.filter (N.eqb LBRACE) r) = 1%nat)
            bodies →
          top_level_rules
            (concat (map (fun r => r ++ [RBRACE]) bodies) ++ trailing)
          = length bodies))
  ∧ (∀ text : str,
       RBRACE ∉ text →
       fragments_of_text text
       = if blank text then []
         else [lstrip_by isspace text ++ [RBRACE]]).
Proof.
  intros Heq. split; [by apply divide_of_texts|]. split.
  - intros bodies trailing Hb Ht fragments.
    assert (Hfr : fragments
                  = map (fun r => lstrip_by isspace r ++ [RBRACE]) bodies).
    { unfold fragments. rewrite fragments_of_pieces.
      - rewrite List.filter_app. simpl. rewrite Ht. simpl.
        rewrite app_nil_r. f_equal.
        clear -Hb. induction Hb as [|r l [_ Hr] _ IH]; simpl; [done|].
        by rewrite Hr, IH.
      - eapply Forall_impl; [exact Hb|]. by intros r [? _].
      - by apply blank_no_closing_brace. }
    split; [done|]. rewrite Hfr. split; [by rewrite length_map|]. split.
    + apply Forall_forall. intros f Hf.
      apply list_elem_of_fmap in Hf as (r & -> & Hr).
      exists (lstrip_by isspace r). split; [|done].
      rewrite Forall_forall in Hb. destruct (Hb _ Hr) as [_ Hnb].
      intros Hl. apply lstrip_blank in Hl. congruence.
    + intros Hopen. apply top_level_rules_of_pieces; [|done].
      rewrite Forall_forall in Hb, Hopen. apply Forall_forall.
      intros r Hr. split; [by destruct (Hb r Hr)|by apply Hopen].
  - intros text Ht.
    pose proof (fragments_of_pieces [] text (List.Forall_nil _) Ht) as H.
    simpl in H. rewrite H. by destruct (blank text).
Qed.
End Splitter.

Lemma divide_declarations_from_style_tags_fragments_example :
  let block := element "style" None (Some (lit "a{x} b{y} ")) in
  divide_declarations_from_style_tags [block] = Ok [lit "a{x}"; lit "b{y}"]
  ∧ length (fragments_of_text (lit "a{x} b{y} ")) = 2%nat
  ∧ top_level_rules (lit "a{x} b{y} ") = 2%nat
  ∧ fragments_of_text (lit "a{x  ") = [lit "a{x  }"].
Proof.
  intros block.
  destruct (divide_declarations_from_style_tags_fragments
              [block] [lit "a{x} b{y} "] eq_refl) as (Hdiv & Hrules & Hopen).
  assert (Hbodies : Forall (fun r => (RBRACE ∉ r) ∧ blank r = false)
                      [lit "a{x"; lit " b{y"]).
  { repeat (apply List.Forall_cons; [split; [by_computation|reflexivity]|]).
    apply List.Forall_nil. }
  split; [exact Hdiv|]. split; [|split].
  - exact (proj1 (proj2 (Hrules [lit "a{x"; lit " b{y"] (lit " ") Hbodies
                           eq_refl))).
  - refine (proj2 (proj2 (proj2 (Hrules [lit "a{x"; lit " b{y"] (lit " ")
                                   Hbodies eq_refl))) _).
    repeat (apply List.Forall_cons; [reflexivity|]). apply List.Forall_nil.
  - refine (Hopen (lit "a{x  ") _). by_computation.
Defined.

(** C4 (as stated) fails in three ways.  A style block holding one blank
    has no closing brace, and the splitter returns no fragment for it.
    A block whose one top-level rule holds two nested rules gives two
    fragments.  A block of two rules followed by other text gives three
    fragments. *)
Lemma block_splitter_fragment_counts_fail :
  ((RBRACE ∉ lit " ")
   ∧ ¬ ∃ fragment,
         divide_declarations_from_style_tags
           [element "style" None (Some (lit " "))] = Ok [fragment])
  ∧ (top_level_rules (lit "@media print{a{x} b{y}}") = 1%nat
     ∧ divide_declarations_from_style_tags
         [element "style" None (Some (lit "@media print{a{x} b{y}}"))]
       = Ok [lit "@media print{a{x}"; lit "b{y}"])
  ∧ (top_level_rules (lit "a{x} b{y} junk") = 2%nat
     ∧ divide_declarations_from_style_tags
         [element "style" None (Some (lit "a{x} b{y} junk"))]
       = Ok [lit "a{x}"; lit "b{y}"; lit "junk}"]).
Proof.
  split; [|split; by vm_compute].
  split; [by_computation|]. intros [fragment H]. vm_compute in H. discriminate.
Qed.

(** ** C9: a style element without text *)

Section SplitterPartial.
Context {Node : Type}.
Implicit Types style_tags : list (Tag Node).

Lemma individual_declerations_raises style_tags :
  Exists (fun tag => tag_string tag = None) style_tags →
  individual_declerations style_tags = Raise AttributeError.
Proof.
  induction 1 as [tag rest Htag|tag rest _ IH]; simpl.
  - by rewrite Htag.
  - rewrite IH. by destruct (tag_string tag).
Qed.

Lemma divide_returns_iff style_tags :
  (∃ fragments, divide_declarations_from_style_tags style_tags = Ok fragments)
  ↔ Forall (fun tag => is_Some (tag_string tag)) style_tags.
Proof.
  split.
  - intros [fragments H]. apply Forall_forall. intros tag Hin.
    destruct (tag_string tag) eqn:Htag; [by eexists|].
    unfold divide_declarations_from_style_tags in H.
    rewrite individual_declerations_raises in H; [discriminate|].
    apply Exists_exists. by exists tag.
  - intros Hall.
    assert (∃ texts, map tag_string style_tags = map Some texts) as [texts Ht].
    { induction Hall as [|tag rest [text Htag] _ [texts IH]].
      - by exists [].
      - exists (text :: texts). simpl. by rewrite Htag, IH. }
    eexists. by apply divide_of_texts.
Qed.

Variable selector_ok : str → bool.
Variable matches : str → BeautifulSoup Node → nat → bool.

(** C9.  When a style element of the document has no string, the
    splitter raises [AttributeError] and so does the run, which writes
    nothing; the splitter returns exactly when every style tag has a
    string. *)
Theorem divide_declarations_from_style_tags_partial
    (parser : CSSParser) (args : InlineCSSArgs) (soup : BeautifulSoup Node) :
  Exists (fun tag => tag_string tag = None) (find_all_style soup) →
  divide_declarations_from_style_tags (find_all_style soup)
  = Raise AttributeError
  ∧ written (main selector_ok matches parser args soup) = Raise AttributeError
  ∧ (∀ style_tags,
       (∃ fragments,
          divide_declarations_from_style_tags style_tags = Ok fragments)
       ↔ Forall (fun tag => is_Some (tag_string tag)) style_tags).
Proof.
  intros Hnone.
  assert (Hdiv : divide_declarations_from_style_tags (find_all_style soup)
                 = Raise AttributeError).
  { unfold divide_declarations_from_style_tags.
    by rewrite individual_declerations_raises. }
  split; [done|]. split; [|apply divide_returns_iff].
  unfold main. simpl. by rewrite Hdiv.
Qed.
End SplitterPartial.

Lemma divide_declarations_from_style_tags_partial_example :
  let soup :=
    document [element "html" None None; element "head" None None;
              element "style" None None; element "body" None None] in
  written (main any_selector matches_by_name demo_parser (demo_args false) soup)
  = Raise AttributeError.
Proof.
  intros soup.
  refine (proj1 (proj2 (divide_declarations_from_style_tags_partial
            any_selector matches_by_name demo_parser (demo_args false) soup _))).
  apply Exists_cons_hd. reflexivity.
Defined.

(** ** Dictionaries *)

Section DictFacts.
Context {K V : Type} `{EqDecision K}.
Implicit Types d : dict K V.

Lemma dict_get_None k d : dict_get k d = None ↔ k ∉ dict_keys d.
Proof.
  induction d as [|[k' v] d IH]; simpl.
  - split; [intros _; apply not_elem_of_nil|done].
  - rewrite not_elem_of_cons. destruct (decide (k = k')); simpl.
    + split; [done|]. by intros [? _].
    + rewrite IH. tauto.
Qed.

Lemma dict_keys_alter (f : V → V) k d :
  dict_keys (dict_alter f k d) = dict_keys d.
Proof.
  induction d as [|[k' v] d IH]; simpl; [done|].
  destruct (decide (k = k')); simpl; [done|]. by rewrite IH.
Qed.

Lemma dict_keys_setdefault k v d :
  dict_keys (dict_setdefault k v d)
  = if bool_decide (k ∈ dict_keys d) then dict_keys d
    else dict_keys d ++ [k].
Proof.
  unfold dict_setdefault. destruct (dict_get k d) eqn:Hget.
  - rewrite bool_decide_eq_true_2; [done|].
    destruct (decide (k ∈ dict_keys d)) as [|Hn]; [done|].
    apply dict_get_None in Hn. congruence.
  - apply dict_get_None in Hget. rewrite bool_decide_eq_false_2 by done.
    unfold dict_keys. by rewrite map_app.
Qed.

Lemma dict_get_alter (f : V → V) k k' d :
  dict_get k' (dict_alter f k d)
  = if decide (k' = k) then f <$> dict_get k d else dict_get k' d.
Proof.
  induction d as [|[k0 v] d IH]; simpl.
  - by destruct (decide (k' = k)).
  - destruct (decide (k = k0)) as [->|Hk]; simpl.
    + destruct (decide (k' = k0)); simpl; [done|done].
    + destruct (decide (k' = k0)) as [->|Hk']; simpl.
      * destruct (decide (k0 = k)); [congruence|done].
      * exact IH.
Qed.

Lemma dict_get_app k d d' :
  dict_get k (d ++ d')
  = match dict_get k d with Some v => Some v | None => dict_get k d' end.
Proof.
  induction d as [|[k0 v] d IH]; simpl; [done|].
  by destruct (decide (k = k0)).
Qed.

Lemma dict_get_setdefault k v k' d :
  dict_get k' (dict_setdefault k v d)
  = match dict_get k' d with
    | Some x => Some x
    | None => if decide (k' = k) then Some v else None
    end.
Proof.
  unfold dict_setdefault. destruct (dict_get k d) eqn:Hget.
  - destruct (dict_get k' d) eqn:Hget'; [done|].
    destruct (decide (k' = k)); [congruence|done].
  - by rewrite dict_get_app.
Qed.
End DictFacts.

Lemma filter_filter_and {A} (p q : A → bool) (l : list A) :
  List.filter p (List.filter q l) = List.filter (fun x => q x && p x) l.
Proof.
  induction l as [|x l IH]; simpl; [done|].
  destruct (q x); simpl; [|done]. destruct (p x); by rewrite IH.
Qed.

Lemma filter_all {A} (p : A → bool) (l : list A) :
  (∀ x, x ∈ l → p x = true) → List.filter p l = l.
Proof.
  induction l as [|x l IH]; simpl; intros H; [done|].
  rewrite H by set_solver. rewrite IH; [done|]. intros y Hy. apply H. set_solver.
Qed.

(** ** The Declaration Grouper *)

Lemma record_rule_entry (d : CssDict) (rule : CSSRule) :
  record_rule d rule
  = match rule_entry rule with Some e => add_entry d e | None => d end.
Proof.
  unfold record_rule, rule_entry.
  by destruct (selectorText rule), (style_cssText rule).
Qed.

Lemma fold_record_rule (rules : list CSSRule) (d : CssDict) :
  fold_left record_rule rules d = fold_left add_entry (omap rule_entry rules) d.
Proof.
  revert d. induction rules as [|rule rules IH]; intros d; simpl; [done|].
  rewrite IH, record_rule_entry. by destruct (rule_entry rule).
Qed.

Lemma dict_keys_add_entry (d : CssDict) (k v : str) :
  dict_keys (add_entry d (k, v))
  = if bool_decide (k ∈ dict_keys d) then dict_keys d else dict_keys d ++ [k].
Proof.
  unfold add_entry. simpl. by rewrite dict_keys_alter, dict_keys_setdefault.
Qed.

Lemma dict_get_add_entry (d : CssDict) (k v k' : str) :
  dict_get k' (add_entry d (k, v))
  = if decide (k' = k) then Some (default [] (dict_get k d) ++ [v])
    else dict_get k' d.
Proof.
  unfold add_entry. simpl. rewrite dict_get_alter, !dict_get_setdefault.
  destruct (decide (k' = k)) as [->|Hk].
  - destruct (dict_get k d); simpl; [done|].
    by destruct (decide (k = k)).
  - destruct (dict_get k' d); [done|].
    by destruct (decide (k' = k)).
Qed.

Lemma dict_keys_fold_add_entry (entries : list (str * str)) (d : CssDict) :
  dict_keys (fold_left add_entry entries d)
  = dict_keys d
    ++ List.filter (fun k => negb (bool_decide (k ∈ dict_keys d)))
         (first_occurrences (map fst entries)).
Proof.
  revert d. induction entries as [|[k v] entries IH]; intros d; simpl.
  - by rewrite app_nil_r.
  - rewrite IH, dict_keys_add_entry. destruct (bool_decide (k ∈ dict_keys d)) eqn:Hk.
    + simpl. f_equal. rewrite filter_filter_and. apply List.filter_ext.
      intros k'. unfold str_eqb.
      destruct (bool_decide (k' ∈ dict_keys d)) eqn:Hk'; simpl;
        [by rewrite andb_false_r|].
      rewrite andb_true_r. apply bool_decide_eq_true in Hk.
      apply bool_decide_eq_false in Hk'.
      rewrite bool_decide_eq_false_2; [done|]. congruence.
    + simpl. rewrite <- app_assoc. simpl. do 2 f_equal.
      rewrite filter_filter_and. apply List.filter_ext.
      intros k'. unfold str_eqb. rewrite <- negb_orb. f_equal.
      apply bool_decide_eq_false in Hk.
      destruct (bool_decide (k' = k)) eqn:Hkk; simpl.
      * apply bool_decide_eq_true in Hkk. subst.
        apply bool_decide_eq_true. set_solver.
      * apply bool_decide_eq_false in Hkk. apply bool_decide_ext. set_solver.
Qed.

Lemma values_for_cons (k k' v : str) (entries : list (str * str)) :
  values_for k' ((k, v) :: entries)
  = if decide (k = k') then v :: values_for k' entries
    else values_for k' entries.
Proof.
  unfold values_for, str_eqb. simpl.
  destruct (decide (k = k')) as [->|Hk].
  - by rewrite bool_decide_eq_true_2.
  - by rewrite bool_decide_eq_false_2.
Qed.

Lemma dict_get_fold_add_entry (entries : list (str * str)) (d : CssDict)
    (k : str) :
  dict_get k (fold_left add_entry entries d)
  = match dict_get k d with
    | Some items => Some (items ++ values_for k entries)
    | None =>
        if bool_decide (k ∈ map fst entries) then Some (values_for k entries)
        else None
    end.
Proof.
  revert d. induction entries as [|[k0 v] entries IH]; intros d; simpl.
  - destruct (dict_get k d); [by rewrite app_nil_r|done].
  - rewrite IH, dict_get_add_entry, values_for_cons.
    destruct (decide (k = k0)) as [->|Hk].
    + destruct (decide (k0 = k0)); [|done].
      destruct (dict_get k0 d); simpl.
      * by rewrite <- app_assoc.
      * rewrite bool_decide_eq_true_2; [done|set_solver].
    + destruct (decide (k0 = k)); [congruence|].
      destruct (dict_get k d); [done|].
      rewrite (bool_decide_ext (k ∈ k0 :: map fst entries)
                 (k ∈ map fst entries)); [done|set_solver].
Qed.

Lemma first_occurrences_members (keys : list str) (k : str) :
  k ∈ first_occurrences keys ↔ k ∈ keys.
Proof.
  induction keys as [|k0 keys IH]; simpl; [done|].
  rewrite !elem_of_cons, <- IH, list_elem_of_In, filter_In, <- list_elem_of_In.
  unfold str_eqb. destruct (decide (k = k0)) as [->|Hk]; [tauto|].
  rewrite bool_decide_eq_false_2 by done. simpl. tauto.
Qed.

Lemma first_occurrences_NoDup (keys : list str) : NoDup (first_occurrences keys).
Proof.
  induction keys as [|k keys IH]; simpl; constructor.
  - rewrite list_elem_of_In, filter_In. unfold str_eqb.
    rewrite bool_decide_eq_true_2 by done. simpl. intros [_ ?]. done.
  - apply NoDup_ListNoDup, List.NoDup_filter, NoDup_ListNoDup, IH.
Qed.

(** ** Runs *)

#[local] Arguments bind : simpl never.
#[local] Arguments tell : simpl never.

Lemma bind_assoc {A B C} (m : M A) (f : A → M B) (g : B → M C) :
  bind (bind m f) g = bind m (fun a => bind (f a) g).
Proof.
  unfold bind. destruct m as [w [a|e]]; simpl; [|done].
  destruct (f a) as [w' [b|e]]; simpl; [|done].
  destruct (g b) as [w'' r]. by rewrite app_assoc.
Qed.

Lemma bind_ret_l {A B} (a : A) (f : A → M B) : bind (ret a) f = f a.
Proof. unfold bind, ret. simpl. by destruct (f a). Qed.


Lemma bind_ok {A B} (w : list str) (a : A) (f : A → M B) :
  bind (w, Ok a) f = (w ++ fst (f a), snd (f a)).
Proof. unfold bind. by destruct (f a). Qed.

Lemma bind_tell {A} (lines : list str) (m : M A) :
  bind (tell lines) (fun _ => m) = (lines ++ fst m, snd m).
Proof. unfold bind, tell. by destruct m. Qed.

(** ** The Rule Parser *)

Section RuleParser.
Variable parser : CSSParser.
Variable level : Z.

Lemma process_loop_app (before after : list str)
    (processed : ProcessedDeclarations) :
  process_loop parser level (before ++ after) processed
  = bind (process_loop parser level before processed)
      (process_loop parser level after).
Proof.
  revert processed. induction before as [|d before IH]; intros processed.
  - symmetry. apply (bind_ret_l processed).
  - simpl. destruct (parseString parser level d) as [[rules| |e] lines].
    + by rewrite IH, bind_assoc.
    + by rewrite IH, bind_assoc.
    + rewrite bind_assoc. done.
Qed.



Lemma process_loop_returns (declarations : list str)
    (processed : ProcessedDeclarations) :
  no_other_exception parser level declarations →
  snd (process_loop parser level declarations processed)
  = Ok {| successful_declaration :=
            fold_left add_entry (recorded_entries parser level declarations)
              (successful_declaration processed);
          failed_declaration :=
            failed_declaration processed
            ++ failed_fragments parser level declarations |}.
Proof.
  intros Hno. revert processed.
  induction Hno as [|d rest Hd _ IH]; intros [record failed]; simpl.
  - by rewrite app_nil_r.
  - unfold failed_fragments. simpl.
    destruct (parseString parser level d) as [[rules| |e] lines] eqn:Hparse;
      simpl in *.
    + rewrite bind_tell. simpl. rewrite IH. simpl.
      by rewrite fold_left_app, fold_record_rule.
    + rewrite bind_tell. simpl. rewrite IH. simpl.
      by rewrite <- app_assoc.
    + by destruct (Hd e).
Qed.

Lemma process_loop_result (declarations : list str)
    (processed r : ProcessedDeclarations) :
  snd (process_loop parser level declarations processed) = Ok r →
  r = {| successful_declaration :=
           fold_left add_entry (recorded_entries parser level declarations)
             (successful_declaration processed);
         failed_declaration :=
           failed_declaration processed
           ++ failed_fragments parser level declarations |}.
Proof.
  revert processed.
  induction declarations as [|d rest IH]; intros [record failed]; simpl.
  - rewrite app_nil_r. by intros [= <-].
  - unfold failed_fragments. simpl.
    destruct (parseString parser level d) as [[rules| |e] lines] eqn:Hparse;
      simpl in *.
    + rewrite bind_tell; simpl. intros Hr. apply IH in Hr. simpl in Hr.
      by rewrite Hr, fold_left_app, fold_record_rule.
    + rewrite bind_tell; simpl. intros Hr. apply IH in Hr. simpl in Hr.
      by rewrite Hr, <- app_assoc.
    + done.
Qed.

(** C6 (as amended).  When no parse ends the run, the Declaration Record
    has the distinct selector texts of the recorded rules as its keys,
    each once, in the order of their first occurrence, and under each
    key the formatted declarations of the rules with that selector text,
    in encounter order.  With a parser that reads [a{color:red}] and
    [a{font-size:12px}] as rules for [a], these two fragments give the
    single entry of [a] with the two formatted declaration texts of the
    parser, in that order: [color: red;] and [font-size: 12px;] when the
    parser returns [color: red] and [font-size: 12px], as cssutils
    does. *)
Theorem declaration_record_groups_in_order (declarations : list str) :
  no_other_exception parser level declarations →
  (∃ r,
     snd (process_css_declarations parser level declarations) = Ok r
     ∧ let entries := recorded_entries parser level declarations in
       dict_keys (successful_declaration r)
       = first_occurrences (map fst entries)
       ∧ NoDup (dict_keys (successful_declaration r))
       ∧ (∀ k,
            dict_get k (successful_declaration r)
            = if bool_decide (k ∈ map fst entries)
              then Some (values_for k entries) else None))
  ∧ (∀ css1 css2 lines1 lines2,
       parseString parser level (lit "a{color:red}")
       = (Parsed [ {| selectorText := Some (lit "a");
                      style_cssText := Some css1 |} ], lines1) →
       parseString parser level (lit "a{font-size:12px}")
       = (Parsed [ {| selectorText := Some (lit "a");
                      style_cssText := Some css2 |} ], lines2) →
       snd (process_css_declarations parser level
              [lit "a{color:red}"; lit "a{font-size:12px}"])
       = Ok {| successful_declaration :=
                 [(lit "a", [format_css_content_for_inline css1;
                             format_css_content_for_inline css2])];
               failed_declaration := [] |})
  ∧ (∀ lines1 lines2,
       parseString parser level (lit "a{color:red}")
       = (Parsed [ {| selectorText := Some (lit "a");
                      style_cssText := Some (lit "color: red") |} ],
          lines1) →
       parseString parser level (lit "a{font-size:12px}")
       = (Parsed [ {| selectorText := Some (lit "a");
                      style_cssText := Some (lit "font-size: 12px") |} ],
          lines2) →
       snd (process_css_declarations parser level
              [lit "a{color:red}"; lit "a{font-size:12px}"])
       = Ok {| successful_declaration :=
                 [(lit "a", [lit "color: red;"; lit "font-size: 12px;"])];
               failed_declaration := [] |}).
Proof.
  intros Hno. split.
  - eexists. split; [by apply process_loop_returns|]. simpl.
    assert (Hkeys :
      dict_keys (fold_left add_entry
                   (recorded_entries parser level declarations) [])
      = first_occurrences
          (map fst (recorded_entries parser level declarations))).
    { rewrite dict_keys_fold_add_entry. simpl. by apply filter_all. }
    split; [exact Hkeys|]. split.
    + rewrite Hkeys. apply first_occurrences_NoDup.
    + intros k. by rewrite dict_get_fold_add_entry.
  - assert (Hpair : ∀ css1 css2 lines1 lines2,
       parseString parser level (lit "a{color:red}")
       = (Parsed [ {| selectorText := Some (lit "a");
                      style_cssText := Some css1 |} ], lines1) →
       parseString parser level (lit "a{font-size:12px}")
       = (Parsed [ {| selectorText := Some (lit "a");
                      style_cssText := Some css2 |} ], lines2) →
       snd (process_css_declarations parser level
              [lit "a{color:red}"; lit "a{font-size:12px}"])
       = Ok {| successful_declaration :=
                 [(lit "a", [format_css_content_for_inline css1;
                             format_css_content_for_inline css2])];
               failed_declaration := [] |}).
    { intros css1 css2 lines1 lines2 H1 H2.
      unfold process_css_declarations. simpl.
      rewrite H1, H2, !bind_tell. reflexivity. }
    split; [exact Hpair|]. intros lines1 lines2 H1 H2.
    by rewrite (Hpair _ _ _ _ H1 H2).
Qed.
End RuleParser.


Lemma declaration_record_groups_in_order_example :
  snd (process_css_declarations serialising_parser 50
         [lit "a{color:red}"; lit "a{font-size:12px}"])
  = Ok {| successful_declaration :=
            [(lit "a", [lit "color: red;"; lit "font-size: 12px;"])];
          failed_declaration := [] |}.
Proof.
  refine (proj2 (proj2 (declaration_record_groups_in_order serialising_parser
            50 [lit "a{color:red}"; lit "a{font-size:12px}"] _))
            [] [] eq_refl eq_refl).
  repeat (apply List.Forall_cons; [intros e; vm_compute; discriminate|]).
  apply List.Forall_nil.
Defined.

(** C6 (as stated) fails in its example.  cssutils returns the
    declaration blocks of the two rules as [color: red] and
    [font-size: 12px], and so does the parser that serialises as
    cssutils does: the entry of [a] holds [color: red;] and
    [font-size: 12px;], not [color:red;] and [font-size:12px;]. *)
Lemma declaration_record_holds_serialised_text :
  parseString serialising_parser 50 (lit "a{color:red}")
  = (Parsed [ {| selectorText := Some (lit "a");
                 style_cssText := Some (lit "color: red") |} ], [])
  ∧ snd (process_css_declarations serialising_parser 50
           [lit "a{color:red}"; lit "a{font-size:12px}"])
    ≠ Ok {| successful_declaration :=
              [(lit "a", [lit "color:red;"; lit "font-size:12px;"])];
            failed_declaration := [] |}.
Proof. split; [reflexivity|]. vm_compute. discriminate. Qed.

(** ** The Inline Applier *)

Lemma rstrip_semicolon_spec (s : str) :
  (∃ n, s = rstrip_semicolon s ++ replicate n SEMICOLON)
  ∧ ¬ ∃ b, rstrip_semicolon s = b ++ [SEMICOLON].
Proof.
  unfold rstrip_semicolon. induction s as [|c s [[n Hn] Hend]] using rev_ind.
  - split; [by exists 0%nat|]. intros [[|] ?]; discriminate.
  - destruct (N.eqb_spec SEMICOLON c) as [<-|Hc].
    + rewrite rstrip_by_app_drop by apply N.eqb_refl. split; [|done].
      exists (S n). rewrite replicate_S_end, app_assoc. by f_equal.
    + rewrite rstrip_by_app_keep by by apply N.eqb_neq. split.
      * exists 0%nat. by rewrite app_nil_r.
      * intros [b Hb]. apply app_inj_tail in Hb as [_ ->]. done.
Qed.

Section InlineApplier.
Context {Node : Type}.
Variable selector_ok : str → bool.
Variable matches : str → BeautifulSoup Node → nat → bool.
Implicit Types soup : BeautifulSoup Node.

Lemma apply_to_item_lookup inline_style soup i j :
  tags (apply_to_item inline_style soup i) !! j
  = if decide (j = i)
    then (fun item =>
            set_style item (new_style_attr (style item) inline_style))
         <$> tags soup !! i
    else tags soup !! j.
Proof.
  unfold apply_to_item. destruct (tags soup !! i) as [item|] eqn:Hi; simpl.
  - destruct (decide (j = i)) as [->|Hj].
    + apply list_lookup_insert_eq. by eapply lookup_lt_Some.
    + by apply list_lookup_insert_ne.
  - destruct (decide (j = i)) as [->|Hj]; [by rewrite Hi|done].
Qed.

Lemma fold_apply_to_item_lookup inline_style (found : list nat) soup j :
  NoDup found →
  tags (fold_left (apply_to_item inline_style) found soup) !! j
  = if bool_decide (j ∈ found)
    then (fun item =>
            set_style item (new_style_attr (style item) inline_style))
         <$> tags soup !! j
    else tags soup !! j.
Proof.
  intros Hnd. revert soup. induction Hnd as [|i found Hi Hnd IH];
    intros soup; simpl; [done|].
  rewrite IH, apply_to_item_lookup.
  destruct (decide (j = i)) as [->|Hj].
  - rewrite bool_decide_eq_false_2 by done.
    rewrite bool_decide_eq_true_2 by set_solver. done.
  - destruct (bool_decide (j ∈ found)) eqn:Hin.
    + rewrite bool_decide_eq_true_2; [done|].
      apply bool_decide_eq_true in Hin. set_solver.
    + rewrite bool_decide_eq_false_2; [done|].
      apply bool_decide_eq_false in Hin. set_solver.
Qed.

Lemma select_NoDup soup selector found :
  select selector_ok matches soup selector = Ok found → NoDup found.
Proof.
  unfold select. destruct (selector_ok selector); [|done].
  intros [= <-]. apply NoDup_ListNoDup, List.NoDup_filter, List.seq_NoDup.
Qed.

(** One selector: every matched element gets the merged value, every
    other element is left as it was. *)
Lemma apply_one_selector soup selector inline_style found :
  select selector_ok matches soup selector = Ok found →
  ∃ soup',
    apply_selectors_to_elements_as_inline_css selector_ok matches soup
      [selector] inline_style = Ok soup'
    ∧ ∀ j,
        tags soup' !! j
        = if bool_decide (j ∈ found)
          then (fun item =>
                  set_style item (new_style_attr (style item) inline_style))
               <$> tags soup !! j
          else tags soup !! j.
Proof.
  intros Hsel. simpl. rewrite Hsel. simpl. eexists. split; [done|].
  intros j. apply fold_apply_to_item_lookup. by eapply select_NoDup.
Qed.

(** C5 (as amended).  For a matched element whose [style] attribute is
    absent, a non-empty string or a non-empty token list, the new value
    is the candidate, respectively the attribute and the candidate, respectively
    the tokens and the candidate, joined with [; ], without its trailing
    semicolons; so [color:red;] on [font-weight:bold] gives
    [font-weight:bold; color:red]. *)
Theorem new_style_attr_merges
    (previous_style_attr : option attr_value) (inline_style : str) :
  previous_style_attr ≠ Some (AttrStr []) →
  previous_style_attr ≠ Some (AttrList []) →
  new_style_attr previous_style_attr inline_style
  = new_style_attr_as_specified previous_style_attr inline_style
  ∧ (∀ soup selector found i item,
       select selector_ok matches soup selector = Ok found →
       i ∈ found → tags soup !! i = Some item →
       style item = previous_style_attr →
       ∃ soup',
         apply_selectors_to_elements_as_inline_css selector_ok matches soup
           [selector] inline_style = Ok soup'
         ∧ tags soup' !! i
           = Some (set_style item
                     (new_style_attr_as_specified previous_style_attr
                        inline_style)))
  ∧ new_style_attr (Some (AttrStr (lit "font-weight:bold")))
      (lit "color:red;")
    = lit "font-weight:bold; color:red".
Proof.
  intros Hs Hl.
  assert (Heq : new_style_attr previous_style_attr inline_style
                = new_style_attr_as_specified previous_style_attr
                    inline_style).
  { unfold new_style_attr, new_style_attr_as_specified.
    destruct previous_style_attr as [[[|c s]|[|t tokens]]|]; try done. }
  split; [exact Heq|]. split; [|by vm_compute].
  intros soup selector found i item Hsel Hi Hitem Hstyle.
  destruct (apply_one_selector soup selector inline_style found Hsel)
    as (soup' & Hrun & Hlookup).
  exists soup'. split; [exact Hrun|].
  rewrite Hlookup, bool_decide_eq_true_2, Hitem by done. simpl.
  by rewrite Hstyle, Heq.
Qed.

(** C10.  For a matched element whose [style] attribute is the empty
    string or the empty token list, the new value is the candidate
    without its trailing semicolons, with nothing in front of it. *)
Theorem empty_style_attr_counts_as_absent
    (previous_style_attr : option attr_value) (inline_style : str) :
  previous_style_attr = Some (AttrStr [])
  ∨ previous_style_attr = Some (AttrList []) →
  new_style_attr previous_style_attr inline_style
  = rstrip_semicolon inline_style
  ∧ new_style_attr previous_style_attr inline_style
    = new_style_attr None inline_style
  ∧ (∃ n, inline_style
          = new_style_attr previous_style_attr inline_style
            ++ replicate n SEMICOLON)
  ∧ (¬ ∃ b, new_style_attr previous_style_attr inline_style
            = b ++ [SEMICOLON])
  ∧ (∀ soup selector found i item,
       select selector_ok matches soup selector = Ok found →
       i ∈ found → tags soup !! i = Some item →
       style item = previous_style_attr →
       ∃ soup',
         apply_selectors_to_elements_as_inline_css selector_ok matches soup
           [selector] inline_style = Ok soup'
         ∧ tags soup' !! i
           = Some (set_style item (rstrip_semicolon inline_style))).
Proof.
  intros Hempty.
  assert (Heq : new_style_attr previous_style_attr inline_style
                = rstrip_semicolon inline_style).
  { by destruct Hempty as [-> | ->]. }
  split; [exact Heq|]. split; [by rewrite Heq|]. rewrite Heq.
  destruct (rstrip_semicolon_spec inline_style) as [Hn Hend].
  split; [exact Hn|]. split; [exact Hend|].
  intros soup selector found i item Hsel Hi Hitem Hstyle.
  destruct (apply_one_selector soup selector inline_style found Hsel)
    as (soup' & Hrun & Hlookup).
  exists soup'. split; [exact Hrun|].
  rewrite Hlookup, bool_decide_eq_true_2, Hitem by done. simpl.
  by rewrite Hstyle, Heq.
Qed.
End InlineApplier.

(** C5 (as stated) fails: with [style] the empty string, the script does
    not join the attribute and the candidate. *)
Lemma empty_style_attr_is_not_joined :
  new_style_attr (Some (AttrStr [])) (lit "color:red;")
  ≠ new_style_attr_as_specified (Some (AttrStr [])) (lit "color:red;").
Proof. vm_compute. discriminate. Qed.

Lemma new_style_attr_merges_example :
  let soup :=
    document [element "p" (Some (AttrStr (lit "font-weight:bold"))) None] in
  ∃ soup',
    apply_selectors_to_elements_as_inline_css any_selector matches_by_name soup
      [lit "p"] (lit "color:red;") = Ok soup'
    ∧ tags soup' !! 0%nat
      = Some (element "p" (Some (AttrStr (lit "font-weight:bold; color:red")))
                None).
Proof.
  intros soup.
  refine (proj1 (proj2 (new_style_attr_merges any_selector matches_by_name
            (Some (AttrStr (lit "font-weight:bold"))) (lit "color:red;") _ _))
            soup (lit "p") [0%nat] 0%nat _ eq_refl _ eq_refl eq_refl);
    [discriminate|discriminate|by_computation].
Defined.

Lemma empty_style_attr_counts_as_absent_example :
  let soup := document [element "p" (Some (AttrStr [])) None] in
  ∃ soup',
    apply_selectors_to_elements_as_inline_css any_selector matches_by_name soup
      [lit "p"] (lit "color:red;;") = Ok soup'
    ∧ tags soup' !! 0%nat
      = Some (element "p" (Some (AttrStr (lit "color:red"))) None).
Proof.
  intros soup.
  refine (proj2 (proj2 (proj2 (proj2 (empty_style_attr_counts_as_absent
            any_selector matches_by_name
            (Some (AttrStr [])) (lit "color:red;;") (or_introl eq_refl)))))
            soup (lit "p") [0%nat] 0%nat _ eq_refl _ eq_refl eq_refl).
  by_computation.
Defined.

(** ** The Selector Resolver *)

Lemma contains_colon_spec (s : str) : contains_colon s = true ↔ COLON ∈ s.
Proof.
  unfold contains_colon. rewrite existsb_exists, list_elem_of_In. split.
  - intros (c & Hc & Heq). apply N.eqb_eq in Heq. by subst.
  - intros Hc. exists COLON. split; [done|apply N.eqb_refl].
Qed.

Lemma filter_sublist {A} (p : A → bool) (l : list A) :
  List.filter p l `sublist_of` l.
Proof.
  induction l as [|x l IH]; simpl; [constructor|].
  destruct (p x); by constructor.
Qed.

Section DictSet.
Context {K V : Type} `{EqDecision K}.
Implicit Types d : dict K V.

Lemma dict_set_fresh k v d :
  k ∉ dict_keys d → dict_set k v d = d ++ [(k, v)].
Proof.
  induction d as [|[k' v'] d IH]; simpl; intros Hk; [done|].
  apply not_elem_of_cons in Hk as [Hk Hd].
  destruct (decide (k = k')); [done|]. by rewrite IH.
Qed.

Lemma dict_set_key k v d : k ∈ dict_keys (dict_set k v d).
Proof.
  induction d as [|[k' v'] d IH]; simpl; [set_solver|].
  destruct (decide (k = k')) as [->|]; simpl; set_solver.
Qed.

Lemma dict_set_keys_mono k k' v d :
  k' ∈ dict_keys d → k' ∈ dict_keys (dict_set k v d).
Proof.
  induction d as [|[k0 v0] d IH]; simpl; [set_solver|].
  destruct (decide (k = k0)); simpl; set_solver.
Qed.

Lemma dict_set_entries k v d (entry : K * V) :
  entry ∈ dict_set k v d → entry = (k, v) ∨ entry ∈ d.
Proof.
  induction d as [|[k0 v0] d IH]; simpl; [set_solver|].
  destruct (decide (k = k0)) as [->|]; set_solver.
Qed.
End DictSet.

Lemma inline_css_declarations_snoc (css_declarations : CssDict)
    (selector : str) (declarations : list str) :
  inline_css_declarations (css_declarations ++ [(selector, declarations)])
  = dict_set (map strip (split COMMA selector)) (join [SPACE] declarations)
      (inline_css_declarations css_declarations).
Proof. unfold inline_css_declarations. by rewrite fold_left_app. Qed.

Lemma inline_css_declarations_keys (css_declarations : CssDict)
    (entry : CssSelector * CssStyleDefinition) :
  entry ∈ css_declarations →
  fst (resolved entry) ∈ dict_keys (inline_css_declarations css_declarations).
Proof.
  induction css_declarations as [|[k ds] d IH] using rev_ind; [set_solver|].
  rewrite inline_css_declarations_snoc, elem_of_app, list_elem_of_singleton.
  intros [Hin | ->].
  - by apply dict_set_keys_mono, IH.
  - apply dict_set_key.
Qed.

Lemma inline_css_declarations_entries (css_declarations : CssDict)
    (group : CssSelectors) (inline_style : str) :
  (group, inline_style) ∈ inline_css_declarations css_declarations →
  ∃ entry, entry ∈ css_declarations ∧ (group, inline_style) = resolved entry.
Proof.
  induction css_declarations as [|[k ds] d IH] using rev_ind.
  - by intros ?%elem_of_nil.
  - rewrite inline_css_declarations_snoc.
    intros [Heq|Hin]%dict_set_entries.
    + exists (k, ds). split; [set_solver|done].
    + destruct (IH Hin) as (entry & ? & ?). exists entry. set_solver.
Qed.

Lemma inline_css_declarations_distinct (css_declarations : CssDict) :
  NoDup (map (fun entry => fst (resolved entry)) css_declarations) →
  inline_css_declarations css_declarations = map resolved css_declarations.
Proof.
  induction css_declarations as [|[k ds] d IH] using rev_ind; [done|].
  rewrite map_app, inline_css_declarations_snoc, map_app. simpl.
  intros [Hd [Hk _]]%NoDup_app. rewrite IH by done.
  apply dict_set_fresh. unfold dict_keys. rewrite map_map.
  intros Hin. apply (Hk _ Hin). set_solver.
Qed.

Section Resolver.
Context {Node : Type}.
Variable selector_ok : str → bool.
Variable matches : str → BeautifulSoup Node → nat → bool.

(** C7.  The Selector Resolver turns each entry of the record, in
    order, into the group of the trimmed pieces of its key and the
    space-joined declarations, stored under the group; a group is split,
    in order, into its selectors with a colon and those without; and
    for a group without plain selector the loop of [main] leaves the
    document as it is. *)
Theorem selector_resolver_groups
    (css_declarations : CssDict) (selectors : CssSelectors)
    (inline_style : str) (soup : BeautifulSoup Node)
    (pseudo_style_declarations :
       dict CssSelectors CssInlineStyleDefinition) :
  (∀ selector declarations,
     inline_css_declarations (css_declarations ++ [(selector, declarations)])
     = dict_set (map strip (split COMMA selector))
         (join [SPACE] declarations)
         (inline_css_declarations css_declarations))
  ∧ (∀ selector declarations,
       (selector, declarations) ∈ css_declarations →
       map strip (split COMMA selector)
       ∈ dict_keys (inline_css_declarations css_declarations))
  ∧ (∀ group style_text,
       (group, style_text) ∈ inline_css_declarations css_declarations →
       ∃ selector declarations,
         (selector, declarations) ∈ css_declarations
         ∧ group = map strip (split COMMA selector)
         ∧ style_text = join [SPACE] declarations)
  ∧ (NoDup (map (fun entry => map strip (split COMMA (fst entry)))
              css_declarations) →
     inline_css_declarations css_declarations
     = map (fun entry =>
              (map strip (split COMMA (fst entry)),
               join [SPACE] (snd entry)))
         css_declarations)
  ∧ pseudo_selectors_of selectors `sublist_of` selectors
  ∧ no_pseudo_selectors_of selectors `sublist_of` selectors
  ∧ (∀ s, s ∈ pseudo_selectors_of selectors ↔ s ∈ selectors ∧ COLON ∈ s)
  ∧ (∀ s, s ∈ no_pseudo_selectors_of selectors
          ↔ s ∈ selectors ∧ COLON ∉ s)
  ∧ (no_pseudo_selectors_of selectors = [] →
     resolve_group selector_ok matches (soup, pseudo_style_declarations)
       (selectors, inline_style)
     = Ok (soup,
           dict_setdefault (pseudo_selectors_of selectors) inline_style
             pseudo_style_declarations)).
Proof.
  split; [intros; apply inline_css_declarations_snoc|].
  split.
  { intros selector declarations Hin.
    apply (inline_css_declarations_keys _ _ Hin). }
  split.
  { intros group style_text Hin.
    destruct (inline_css_declarations_entries _ _ _ Hin)
      as ([selector declarations] & Hentry & Heq).
    exists selector, declarations. by injection Heq as -> ->. }
  split; [apply inline_css_declarations_distinct|].
  split; [apply filter_sublist|]. split; [apply filter_sublist|].
  split.
  { intros s. unfold pseudo_selectors_of.
    by rewrite list_elem_of_In, filter_In, <- list_elem_of_In,
      contains_colon_spec. }
  split.
  { intros s. unfold no_pseudo_selectors_of.
    rewrite list_elem_of_In, filter_In, <- list_elem_of_In,
      negb_true_iff, <- not_true_iff_false, contains_colon_spec. done. }
  intros Hplain. unfold resolve_group. by rewrite Hplain.
Qed.
End Resolver.

Lemma selector_resolver_groups_example :
  let soup :=
    document [element "a" None None;
              element "b" (Some (AttrStr (lit "x:y"))) None] in
  inline_css_declarations [(lit "a , b:hover", [lit "c:d;"; lit "e:f;"])]
  = [([lit "a"; lit "b:hover"], lit "c:d; e:f;")]
  ∧ resolve_group any_selector matches_by_name (soup, [])
      ([lit "a:link"; lit "b:hover"], lit "c:d;")
    = Ok (soup, [([lit "a:link"; lit "b:hover"], lit "c:d;")]).
Proof.
  intros soup.
  destruct (selector_resolver_groups any_selector matches_by_name
              [(lit "a , b:hover", [lit "c:d;"; lit "e:f;"])]
              [lit "a:link"; lit "b:hover"] (lit "c:d;") soup [])
    as (_ & _ & _ & Hmap & _ & _ & _ & _ & Hskip).
  split.
  - refine (Hmap _). apply NoDup_singleton.
  - exact (Hskip eq_refl).
Defined.

(** ** The run as a whole *)

Section Main.
Context {Node : Type}.
Variable selector_ok : str → bool.
Variable matches : str → BeautifulSoup Node → nat → bool.
Implicit Types soup : BeautifulSoup Node.

(** Inlining changes [style] attributes only: the elements keep their
    names and nothing is appended to the head. *)
Lemma apply_to_item_frame inline_style soup i :
  same_frame soup (apply_to_item inline_style soup i).
Proof.
  unfold same_frame, apply_to_item.
  destruct (tags soup !! i) as [item|] eqn:Hi; simpl; [|done].
  split; [|done]. rewrite list_fmap_insert. simpl.
  apply list_insert_id. by rewrite list_lookup_fmap, Hi.
Qed.

Lemma fold_apply_to_item_frame inline_style (found : list nat) soup :
  same_frame soup (fold_left (apply_to_item inline_style) found soup).
Proof.
  revert soup. induction found as [|i found IH]; intros soup; simpl; [done|].
  destruct (IH (apply_to_item inline_style soup i)) as [Hn Ha].
  destruct (apply_to_item_frame inline_style soup i) as [Hn' Ha'].
  split; congruence.
Qed.

Lemma apply_selectors_frame (selectors : list str) inline_style soup soup' :
  apply_selectors_to_elements_as_inline_css selector_ok matches soup
    selectors inline_style = Ok soup' →
  same_frame soup soup'.
Proof.
  revert soup. induction selectors as [|selector rest IH]; intros soup; simpl.
  - by intros [= <-].
  - destruct (select selector_ok matches soup selector) as [found|];
      simpl; [|done].
    intros Hrest. destruct (IH _ Hrest) as [Hn Ha].
    destruct (fold_apply_to_item_frame inline_style found soup) as [Hn' Ha'].
    split; congruence.
Qed.

Lemma resolve_group_frame soup pseudo entry soup' pseudo' :
  resolve_group selector_ok matches (soup, pseudo) entry
  = Ok (soup', pseudo') →
  same_frame soup soup'.
Proof.
  destruct entry as [selectors inline_style]. unfold resolve_group.
  destruct (no_pseudo_selectors_of selectors) as [|s plain] eqn:Hplain.
  - by intros [= <- _].
  - destruct (apply_selectors_to_elements_as_inline_css _ _ _ _ _)
      as [soup1|] eqn:Happly; simpl; [|done].
    intros [= <- _]. by eapply apply_selectors_frame.
Qed.

Lemma resolve_groups_frame (groups : InlineCssDict) soup pseudo soup' pseudo' :
  resolve_groups selector_ok matches groups (soup, pseudo)
  = Ok (soup', pseudo') →
  same_frame soup soup'.
Proof.
  revert soup pseudo. induction groups as [|entry rest IH];
    intros soup pseudo; cbn [resolve_groups].
  - by intros [= <- _].
  - destruct (resolve_group selector_ok matches (soup, pseudo) entry)
      as [[soup1 pseudo1]|] eqn:Hstep;
      simpl; [|done].
    intros Hrest. destruct (IH _ _ Hrest) as [Hn Ha].
    destruct (resolve_group_frame _ _ _ _ _ Hstep) as [Hn' Ha'].
    split; congruence.
Qed.

Lemma has_head_by_names soup soup' :
  map name (tags soup') = map name (tags soup) →
  has_head soup' = has_head soup.
Proof.
  unfold has_head. generalize (tags soup) (tags soup').
  induction l as [|t l IH]; intros [|t' l']; simpl; try done.
  intros [= Ht Hl]. rewrite (IH l') by done.
  unfold is_named. by rewrite Ht.
Qed.

Lemma has_head_without_style_tags soup :
  has_head (_remove_style_tags_from_soup soup) = has_head soup.
Proof.
  unfold has_head, _remove_style_tags_from_soup. simpl.
  induction (tags soup) as [|t l IH]; simpl; [done|].
  destruct (is_named "style" t) eqn:Hstyle; simpl; [|by rewrite IH].
  rewrite IH. unfold is_named, str_eqb in *.
  apply bool_decide_eq_true in Hstyle.
  rewrite bool_decide_eq_false_2; [done|]. by rewrite Hstyle.
Qed.

Lemma main_written (parser : CSSParser) (args : InlineCSSArgs) soup :
  written (main selector_ok matches parser args soup)
  = result_bind (divide_declarations_from_style_tags (find_all_style soup))
      (fun declarations =>
       result_bind
         (snd (process_css_declarations parser
                 (logger_level (main selector_ok matches parser args soup))
                 declarations))
         (fun processed =>
          result_bind
            (resolve_groups selector_ok matches
               (inline_css_declarations (successful_declaration processed))
               (soup, []))
            (fun state =>
             Ok (output_html args,
                 insert_unprocessed_declarations
                   (_remove_style_tags_from_soup (fst state))
                   (failed_declaration processed))))).
Proof.
  unfold main, lift. simpl.
  destruct (divide_declarations_from_style_tags _) as [declarations|];
    [|done].
  rewrite bind_ok. simpl.
  destruct (process_css_declarations _ _ _) as [w [processed|e]]; [|done].
  rewrite bind_ok. simpl.
  by destruct (resolve_groups _ _ _ _).
Qed.

(** C1, what the script does instead.  Whatever the groups with pseudo
    selectors were, the style block appended to the head holds the
    failed fragments, in order, and nothing else. *)
Theorem residual_block_holds_failed_fragments_only
    (parser : CSSParser) (args : InlineCSSArgs) soup
    (path : str) (out : BeautifulSoup Node) :
  written (main selector_ok matches parser args soup) = Ok (path, out) →
  ∃ declarations,
    divide_declarations_from_style_tags (find_all_style soup)
    = Ok declarations
    ∧ head_appended out
      = head_appended soup
        ++ (if has_head soup
            then [failed_fragments parser
                    (logger_level
                       (main selector_ok matches parser args soup))
                    declarations]
            else []).
Proof.
  rewrite main_written.
  destruct (divide_declarations_from_style_tags _) as [declarations|];
    simpl; [|done].
  destruct (snd (process_css_declarations _ _ _)) as [processed|] eqn:Hproc;
    simpl; [|done].
  destruct (resolve_groups _ _ _ _) as [[soup1 pseudo]|] eqn:Hloop;
    simpl; [|done].
  intros [= _ <-]. exists declarations. split; [done|].
  apply process_loop_result in Hproc. simpl in Hproc.
  destruct (resolve_groups_frame _ _ _ _ _ Hloop) as [Hnames Happ].
  unfold insert_unprocessed_declarations.
  rewrite has_head_without_style_tags, (has_head_by_names _ _ Hnames).
  destruct (has_head soup); simpl; rewrite Happ.
  - by rewrite Hproc.
  - by rewrite app_nil_r.
Qed.

(** C8.  The two branches on the silent flag set the same level, so the
    run with the flag and the run without it leave the same level, the
    same diagnostics and the same outcome. *)
Theorem silent_flag_changes_nothing
    (parser : CSSParser) (input output : str) soup :
  logging_CRITICAL = logging_FATAL
  ∧ main selector_ok matches parser
      {| input_html := input; output_html := output; silent := true |} soup
    = main selector_ok matches parser
        {| input_html := input; output_html := output; silent := false |}
        soup.
Proof. split; reflexivity. Qed.
End Main.

Lemma residual_block_holds_failed_fragments_only_example :
  let soup :=
    document [element "html" None None; element "head" None None;
              element "style" None (Some (lit "a, b:hover{color:red}"));
              element "body" None None; element "a" None None;
              element "b" None None] in
  ∃ out,
    written (main any_selector matches_by_name demo_parser (demo_args false)
               soup)
    = Ok (lit "out.html", out)
    ∧ head_appended out = [[]]
    ∧ result_map snd
        (resolve_groups any_selector matches_by_name
           (inline_css_declarations [(lit "a, b:hover", [lit "color:red;"])])
           (soup, []))
      = Ok [([lit "b:hover"], lit "color:red;")].
Proof.
  intros soup.
  destruct (written (main any_selector matches_by_name demo_parser
                       (demo_args false) soup)) as [[path out]|e] eqn:Hrun;
    [|vm_compute in Hrun; discriminate].
  destruct (residual_block_holds_failed_fragments_only any_selector
              matches_by_name demo_parser (demo_args false) soup path out Hrun)
    as (declarations & Hdiv & Hres).
  exists out. split; [|split].
  - vm_compute in Hrun. injection Hrun as <- _. reflexivity.
  - vm_compute in Hdiv. injection Hdiv as <-. exact Hres.
  - reflexivity.
Defined.

Lemma format_css_content_for_inline_lines_example :
  format_css_content_for_inline (lit "a:b;;" ++ [LF] ++ lit " c:d")
  = lit "a:b;  c:d;"
  ∧ islinebreak SPACE = false.
Proof.
  destruct (format_css_content_for_inline_lines
              (lit "a:b;;" ++ [LF] ++ lit " c:d")) as (Hjoin & _ & Hbreak).
  split; [exact Hjoin|]. apply Hbreak. by_computation.
Defined.

(** * Further properties of the text functions *)

Lemma lstrip_by_subset (p : char → bool) (s : str) (c : char) :
  c ∈ lstrip_by p s → c ∈ s.
Proof.
  induction s as [|a s IH]; simpl; [done|].
  destruct (p a); [|done]. intros Hc. apply elem_of_cons. right. by apply IH.
Qed.

Lemma rstrip_by_subset (p : char → bool) (s : str) (c : char) :
  c ∈ rstrip_by p s → c ∈ s.
Proof.
  induction s as [|a s IH]; simpl; [done|].
  destruct (rstrip_by p s) as [|k kept].
  - destruct (p a); [by intros ?%elem_of_nil|]. set_solver.
  - set_solver.
Qed.

Lemma strip_subset (s : str) (c : char) : c ∈ strip s → c ∈ s.
Proof.
  unfold strip. intros Hc. by apply rstrip_by_subset, lstrip_by_subset in Hc.
Qed.

Lemma rstrip_by_nil_iff (p : char → bool) (s : str) :
  rstrip_by p s = [] ↔ forallb p s = true.
Proof.
  induction s as [|a s IH]; simpl; [done|].
  destruct (rstrip_by p s) as [|k kept].
  - destruct (p a); simpl; [by rewrite <- IH|]. split; discriminate.
  - rewrite andb_true_iff, <- IH. split; [discriminate|]. by intros [_ ?].
Qed.

Lemma forallb_lstrip_by (p : char → bool) (s : str) :
  forallb p (lstrip_by p s) = forallb p s.
Proof.
  induction s as [|a s IH]; simpl; [done|].
  destruct (p a) eqn:Ha; simpl; [done|]. by rewrite Ha.
Qed.

Lemma strip_nil_iff (s : str) : strip s = [] ↔ blank s = true.
Proof. unfold strip, blank. by rewrite rstrip_by_nil_iff, forallb_lstrip_by. Qed.

Lemma splitlines_nil_iff (s : str) : splitlines s = [] ↔ s = [].
Proof.
  destruct s as [|c rest]; simpl; [done|]. split; [|discriminate].
  destruct (islinebreak c).
  - destruct rest as [|d rest']; [discriminate|].
    by destruct ((c =? CR) && (d =? LF)).
  - by destruct (splitlines rest).
Qed.

Lemma splitlines_single (s : str) :
  s ≠ [] → (∀ c, c ∈ s → islinebreak c = false) → splitlines s = [s].
Proof.
  induction s as [|a s IH]; [done|]. intros _ Hs. simpl.
  rewrite (Hs a) by set_solver. destruct s as [|b s]; [done|].
  rewrite IH; [done|done|]. intros c Hc. apply Hs. set_solver.
Qed.

Lemma join_snoc (sep : str) (items : list str) (x : str) :
  join sep (items ++ [x])
  = match items with [] => x | _ => join sep items ++ sep ++ x end.
Proof.
  induction items as [|y items IH]; [done|].
  change ((y :: items) ++ [x]) with (y :: (items ++ [x])).
  destruct items as [|z items]; [done|].
  change (join sep (y :: (z :: items) ++ [x]))
    with (y ++ sep ++ join sep ((z :: items) ++ [x])).
  rewrite IH. change (join sep (y :: z :: items))
    with (y ++ sep ++ join sep (z :: items)).
  by rewrite <- !app_assoc.
Qed.

Lemma split_pieces_clean (sep : char) (s piece : str) :
  piece ∈ split sep s → sep ∉ piece.
Proof.
  revert piece. induction s as [|a s IH]; simpl; intros piece Hin.
  - apply list_elem_of_singleton in Hin. subst. apply not_elem_of_nil.
  - destruct (N.eqb_spec a sep) as [->|Ha].
    + apply elem_of_cons in Hin as [->|Hin]; [apply not_elem_of_nil|by apply IH].
    + destruct (split sep s) as [|p ps].
      * apply list_elem_of_singleton in Hin. subst. set_solver.
      * apply elem_of_cons in Hin as [->|Hin].
        -- apply not_elem_of_cons. split; [done|]. apply IH. set_solver.
        -- apply IH. set_solver.
Qed.

(** Every fragment of the splitter, whatever the blocks hold, is a
    non-empty text without closing brace, starting with a non-blank,
    followed by one closing brace; stripping it again changes nothing. *)
Theorem fragments_hold_one_closing_brace {Node : Type}
    (style_tags : list (Tag Node)) (fragments : list str) :
  divide_declarations_from_style_tags style_tags = Ok fragments →
  Forall (fun fragment =>
            ∃ body, fragment = body ++ [RBRACE] ∧ body ≠ []
                    ∧ (RBRACE ∉ body)
                    ∧ lstrip_by isspace body = body
                    ∧ strip fragment = fragment) fragments.
Proof.
  unfold divide_declarations_from_style_tags.
  destruct (individual_declerations style_tags) as [pieces|] eqn:Hpieces;
    simpl; [|done].
  intros [= <-].
  assert (Hall : Forall (Forall (fun x => ∃ r, x = _add_closing_tag r
                                               ∧ (RBRACE ∉ r))) pieces).
  { clear -Hpieces. revert pieces Hpieces.
    induction style_tags as [|tag rest IH]; simpl; intros pieces.
    - intros [= <-]. constructor.
    - destruct (tag_string tag) as [text|]; [|done].
      destruct (individual_declerations rest) as [ps|]; simpl; [|done].
      intros [= <-]. constructor; [|by apply IH].
      apply Forall_forall. intros x Hx.
      apply list_elem_of_fmap in Hx as (r & -> & Hr).
      exists r. split; [done|]. by eapply split_pieces_clean. }
  apply Forall_forall. intros fragment Hin.
  apply list_elem_of_In, filter_In in Hin as [Hin Hkept].
  apply in_concat in Hin as (block & Hblock & Hfr).
  apply list_elem_of_In in Hblock, Hfr.
  rewrite Forall_forall in Hall. specialize (Hall _ Hblock).
  rewrite Forall_forall in Hall. destruct (Hall _ Hfr) as (r & -> & Hr).
  rewrite add_closing_tag_kept in Hkept. unfold _add_closing_tag.
  rewrite !strip_closed, lstrip_by_idemp.
  exists (lstrip_by isspace r). split; [done|]. split.
  { intros Hl. apply lstrip_blank in Hl. by rewrite Hl in Hkept. }
  split; [|by rewrite lstrip_by_idemp].
  intros Hc. by apply lstrip_by_subset in Hc.
Qed.

Lemma fragments_hold_one_closing_brace_example :
  Forall (fun fragment =>
            ∃ body, fragment = body ++ [RBRACE] ∧ body ≠ []
                    ∧ (RBRACE ∉ body)
                    ∧ lstrip_by isspace body = body
                    ∧ strip fragment = fragment)
    [lit "@media{a{x}"; lit "b{y}"].
Proof.
  exact (fragments_hold_one_closing_brace
           [element "style" None (Some (lit " @media{a{x} b{y}}"))]
           [lit "@media{a{x}"; lit "b{y}"] eq_refl).
Defined.

(** The formatted text is empty exactly for a blank text; otherwise it
    ends in a semicolon. *)
Theorem format_css_content_for_inline_empty_iff (css_text : str) :
  (format_css_content_for_inline css_text = [] ↔ blank css_text = true)
  ∧ (blank css_text = false →
     ∃ init, format_css_content_for_inline css_text = init ++ [SEMICOLON]).
Proof.
  unfold format_css_content_for_inline.
  destruct (splitlines (strip css_text)) as [|l ls] eqn:Hlines.
  - apply splitlines_nil_iff, strip_nil_iff in Hlines. simpl.
    split; [done|]. congruence.
  - assert (Hnb : blank css_text = false).
    { destruct (blank css_text) eqn:Hb; [|done].
      apply strip_nil_iff, splitlines_nil_iff in Hb. congruence. }
    assert (Hend : ∃ init,
      join [SPACE]
        (map (fun item => remove_semicolons item ++ [SEMICOLON]) (l :: ls))
      = init ++ [SEMICOLON]).
    { destruct (exists_last (l := l :: ls)) as (front & final & ->); [done|].
      rewrite map_app. simpl. rewrite join_snoc.
      destruct (map _ front); [by eexists|].
      eexists. rewrite !app_assoc. reflexivity. }
    split; [|done]. destruct Hend as [init ->]. rewrite Hnb.
    split; [|done]. by destruct init.
Qed.

(** On a text without line boundary that is not blank, formatting strips
    the text, removes all its semicolons, also those between two
    declarations, and appends one. *)
Theorem format_css_content_for_inline_single_line (css_text : str) :
  (∀ c, c ∈ css_text → islinebreak c = false) →
  blank css_text = false →
  format_css_content_for_inline css_text
  = remove_semicolons (strip css_text) ++ [SEMICOLON].
Proof.
  intros Hline Hnb. unfold format_css_content_for_inline.
  rewrite splitlines_single; [done| |].
  - intros Hs. apply strip_nil_iff in Hs. congruence.
  - intros c Hc. by apply Hline, strip_subset.
Qed.

Lemma format_css_content_for_inline_single_line_example :
  format_css_content_for_inline (lit " color:red; font-size:12px ")
  = lit "color:red font-size:12px;".
Proof.
  refine (format_css_content_for_inline_single_line
            (lit " color:red; font-size:12px ") _ eq_refl).
  intros c Hc. revert c Hc. apply Forall_forall.
  refine (bool_decide_unpack _ _); vm_compute; exact I.
Defined.

(** * Further properties of the Rule Parser *)

Lemma snd_bind_ext {A B} (m : M A) (f g : A → M B) :
  (∀ a, snd (f a) = snd (g a)) → snd (bind m f) = snd (bind m g).
Proof.
  intros Hfg. destruct m as [w [a|e]]; [|done].
  rewrite !bind_ok. simpl. apply Hfg.
Qed.

Lemma format_css_content_for_inline_chars (css_text : str) (c : char) :
  c ∈ format_css_content_for_inline css_text → islinebreak c = false.
Proof.
  unfold format_css_content_for_inline.
  intros [Hc|(item & Hitem & Hc)]%join_chars.
  - apply list_elem_of_singleton in Hc. by subst.
  - apply list_elem_of_fmap in Hitem as (line & -> & Hline).
    apply elem_of_app in Hc as [Hc|Hc].
    + apply remove_semicolons_subset in Hc.
      by destruct (splitlines_chars _ _ _ Hline Hc).
    + apply list_elem_of_singleton in Hc. by subst.
Qed.

Section DictMembers.
Context {K V : Type} `{EqDecision K}.
Implicit Types d : dict K V.

Lemma dict_alter_entries (f : V → V) k d (entry : K * V) :
  entry ∈ dict_alter f k d →
  entry ∈ d ∨ ∃ old, (fst entry, old) ∈ d ∧ snd entry = f old.
Proof.
  induction d as [|[k0 v0] d IH]; simpl; [by left|].
  destruct (decide (k = k0)) as [->|Hk].
  - intros [->|Hin]%elem_of_cons.
    + right. exists v0. split; [set_solver|done].
    + left. set_solver.
  - intros [->|Hin]%elem_of_cons; [left; set_solver|].
    destruct (IH Hin) as [?|(old & ? & ?)]; [left; set_solver|].
    right. exists old. split; [set_solver|done].
Qed.

Lemma dict_setdefault_entries k v d (entry : K * V) :
  entry ∈ dict_setdefault k v d → entry ∈ d ∨ entry = (k, v).
Proof.
  unfold dict_setdefault. destruct (dict_get k d); [by left|].
  rewrite elem_of_app, list_elem_of_singleton. tauto.
Qed.
End DictMembers.

Lemma add_entry_values (Q : str → Prop) (d : CssDict) (e : str * str) :
  (∀ entry, entry ∈ d → Forall Q (snd entry)) → Q (snd e) →
  ∀ entry, entry ∈ add_entry d e → Forall Q (snd entry).
Proof.
  intros Hd He entry Hin. unfold add_entry in Hin.
  assert (Hdef : ∀ x, x ∈ dict_setdefault (fst e) [] d → Forall Q (snd x)).
  { intros x [Hx | ->]%dict_setdefault_entries; [by apply Hd|constructor]. }
  apply dict_alter_entries in Hin as [Hin|(old & Hold & ->)].
  - by apply Hdef.
  - apply Forall_app. split; [apply (Hdef _ Hold)|by constructor].
Qed.

Lemma fold_add_entry_values (Q : str → Prop) (entries : list (str * str))
    (d : CssDict) :
  (∀ entry, entry ∈ d → Forall Q (snd entry)) →
  Forall (fun e => Q (snd e)) entries →
  ∀ entry, entry ∈ fold_left add_entry entries d → Forall Q (snd entry).
Proof.
  intros Hd He. revert d Hd.
  induction He as [|e entries He _ IH]; intros d Hd; simpl; [done|].
  apply IH. by apply add_entry_values.
Qed.

Section RuleParserMore.
Variable parser : CSSParser.
Variable level : Z.

(** The lines the parser writes for a sequence of fragments. *)
Lemma process_loop_diagnostics (declarations : list str)
    (processed : ProcessedDeclarations) :
  no_other_exception parser level declarations →
  fst (process_loop parser level declarations processed)
  = concat (map (fun d => snd (parseString parser level d)) declarations).
Proof.
  intros Hno. revert processed.
  induction Hno as [|d rest Hd _ IH]; intros processed; simpl; [done|].
  destruct (parseString parser level d) as [[rules| |e] lines]; simpl in *.
  - rewrite bind_tell. simpl. by rewrite IH.
  - rewrite bind_tell. simpl. by rewrite IH.
  - by destruct (Hd e).
Qed.

Lemma recorded_entries_formatted (declarations : list str) :
  Forall (fun e => ∃ css, snd e = format_css_content_for_inline css)
    (recorded_entries parser level declarations).
Proof.
  induction declarations as [|d rest IH]; simpl; [constructor|].
  apply Forall_app. split; [|done].
  destruct (fst (parseString parser level d)) as [rules| |e]; [|done|done].
  apply Forall_forall. intros entry Hin.
  apply list_elem_of_omap in Hin as (rule & _ & Hrule).
  unfold rule_entry in Hrule.
  destruct (selectorText rule), (style_cssText rule); try done.
  injection Hrule as <-. by eexists.
Qed.

(** When no parse ends the run, the run writes the parser's lines of all
    fragments in order, and its failed fragments are exactly the
    fragments on which the parse raised the syntax error, in input
    order. *)
Theorem process_css_declarations_failed_fragments (declarations : list str) :
  no_other_exception parser level declarations →
  ∃ r,
    process_css_declarations parser level declarations
    = (concat (map (fun d => snd (parseString parser level d)) declarations),
       Ok r)
    ∧ failed_declaration r `sublist_of` declarations
    ∧ (∀ d, d ∈ failed_declaration r
            ↔ d ∈ declarations
              ∧ fst (parseString parser level d) = RaisesSyntaxErr).
Proof.
  intros Hno. eexists. split.
  - apply injective_projections; simpl.
    + by apply process_loop_diagnostics.
    + by apply process_loop_returns.
  - simpl. split; [apply filter_sublist|].
    intros d. unfold failed_fragments.
    rewrite list_elem_of_In, filter_In, <- list_elem_of_In.
    destruct (fst (parseString parser level d)); simpl; naive_solver.
Qed.

(** A fragment whose parse returns only rules without selector text or
    without declaration block leaves no trace: the run ends as the run
    without the fragment, in the record and in the failed fragments. *)
Theorem unreadable_rules_leave_no_trace
    (before after : list str) (fragment : str) (rules : list CSSRule)
    (lines : list str) :
  parseString parser level fragment = (Parsed rules, lines) →
  Forall (fun rule => selectorText rule = None ∨ style_cssText rule = None)
    rules →
  snd (process_css_declarations parser level (before ++ fragment :: after))
  = snd (process_css_declarations parser level (before ++ after)).
Proof.
  intros Hparse Hrules. unfold process_css_declarations.
  rewrite !process_loop_app. apply snd_bind_ext. intros [record failed].
  simpl. rewrite Hparse, bind_tell. simpl. f_equal. f_equal. f_equal.
  clear -Hrules. induction Hrules as [|rule rules Hrule _ IH]; simpl; [done|].
  rewrite <- IH at 2. f_equal. unfold record_rule.
  destruct Hrule as [-> | Hstyle]; [done|].
  rewrite Hstyle. by destruct (selectorText rule).
Qed.

(** The declarations of the record, and so the inline style of every
    group, hold no line boundary; neither does the value given to an
    element without [style] attribute. *)
Theorem inline_styles_hold_no_line_break
    (declarations : list str) (r : ProcessedDeclarations)
    (group : CssSelectors) (style_text : str) :
  snd (process_css_declarations parser level declarations) = Ok r →
  (group, style_text)
  ∈ inline_css_declarations (successful_declaration r) →
  (∀ c, c ∈ style_text → islinebreak c = false)
  ∧ (∀ c, c ∈ new_style_attr None style_text → islinebreak c = false).
Proof.
  intros Hrun Hin.
  assert (Hstyle : ∀ c, c ∈ style_text → islinebreak c = false).
  { apply process_loop_result in Hrun. subst r. simpl in Hin.
    apply inline_css_declarations_entries in Hin as (entry & Hentry & [= _ ->]).
    pose proof (fold_add_entry_values
      (fun item => ∀ c, c ∈ item → islinebreak c = false)
      (recorded_entries parser level declarations) []) as Hvalues.
    assert (Hitems : Forall (fun item => ∀ c, c ∈ item → islinebreak c = false)
                       (snd entry)).
    { apply Hvalues; [by intros ? ?%elem_of_nil| |done].
      eapply Forall_impl; [apply recorded_entries_formatted|].
      intros e [css ->] c. apply format_css_content_for_inline_chars. }
    intros c [Hc|(item & Hitem & Hc)]%join_chars.
    - apply list_elem_of_singleton in Hc. by subst.
    - rewrite Forall_forall in Hitems. by apply (Hitems item). }
  split; [done|]. intros c Hc. apply Hstyle.
  by apply rstrip_by_subset in Hc.
Qed.
End RuleParserMore.

Lemma process_css_declarations_failed_fragments_example :
  ∃ r,
    process_css_declarations demo_parser 50
      [lit "a{color:red}"; lit "garbage}"; lit "b{x:y}"; lit "}"]
    = ([], Ok r)
    ∧ failed_declaration r
      `sublist_of` [lit "a{color:red}"; lit "garbage}"; lit "b{x:y}"; lit "}"]
    ∧ (∀ d, d ∈ failed_declaration r
            ↔ d ∈ [lit "a{color:red}"; lit "garbage}"; lit "b{x:y}"; lit "}"]
              ∧ fst (parseString demo_parser 50 d) = RaisesSyntaxErr).
Proof.
  refine (process_css_declarations_failed_fragments demo_parser 50
            [lit "a{color:red}"; lit "garbage}"; lit "b{x:y}"; lit "}"] _).
  repeat (apply List.Forall_cons; [intros e; vm_compute; discriminate|]).
  apply List.Forall_nil.
Defined.

Lemma unreadable_rules_leave_no_trace_example :
  snd (process_css_declarations picky_parser 50
         [lit "a{color:red}"; lit "@media print{b{x:y}"; lit "c{z:w}"])
  = snd (process_css_declarations picky_parser 50
           [lit "a{color:red}"; lit "c{z:w}"]).
Proof.
  refine (unreadable_rules_leave_no_trace picky_parser 50
            [lit "a{color:red}"] [lit "c{z:w}"] (lit "@media print{b{x:y}")
            [ {| selectorText := None; style_cssText := None |} ] []
            eq_refl _).
  apply List.Forall_cons; [by left|apply List.Forall_nil].
Defined.

Lemma inline_styles_hold_no_line_break_example :
  Forall (fun c => islinebreak c = false) (lit "color:red; margin:0;").
Proof.
  apply Forall_forall.
  refine (proj1 (inline_styles_hold_no_line_break demo_parser 50
            [lit "a , b{color:red}"; lit "a , b{margin:0}"]
            {| successful_declaration :=
                 [(lit "a , b", [lit "color:red;"; lit "margin:0;"])];
               failed_declaration := [] |}
            [lit "a"; lit "b"] (lit "color:red; margin:0;") eq_refl _)).
  by_computation.
Defined.

(** * Further properties of the run *)

Section MainMore.
Context {Node : Type}.
Variable selector_ok : str → bool.
Variable matches : str → BeautifulSoup Node → nat → bool.
Implicit Types soup : BeautifulSoup Node.

(** A parse that raises anything but the syntax error ends the run with
    that exception: nothing is written but the parser's lines up to and
    including that fragment, and the fragments after it are not parsed. *)
Theorem other_exception_ends_the_run
    (parser : CSSParser) (args : InlineCSSArgs) soup
    (before after : list str) (fragment : str) (e : exn) (lines : list str) :
  let level := logger_level (main selector_ok matches parser args soup) in
  divide_declarations_from_style_tags (find_all_style soup)
  = Ok (before ++ fragment :: after) →
  no_other_exception parser level before →
  parseString parser level fragment = (RaisesOther e, lines) →
  written (main selector_ok matches parser args soup) = Raise e
  ∧ diagnostics (main selector_ok matches parser args soup)
    = concat (map (fun d => snd (parseString parser level d)) before) ++ lines.
Proof.
  intros level.
  assert (Hlevel : level
                   = if silent args then logging_CRITICAL else logging_FATAL)
    by reflexivity.
  clearbody level. intros Hdiv Hno Hparse.
  assert (Hrun : process_css_declarations parser level
                   (before ++ fragment :: after)
                 = (concat (map (fun d => snd (parseString parser level d))
                              before) ++ lines, Raise e)).
  { unfold process_css_declarations. rewrite process_loop_app.
    pose proof (process_loop_diagnostics parser level before
                  {| successful_declaration := [];
                     failed_declaration := [] |} Hno) as Hlog.
    pose proof (process_loop_returns parser level before
                  {| successful_declaration := [];
                     failed_declaration := [] |} Hno) as Hret.
    destruct (process_loop parser level before _) as [w res].
    simpl in Hlog, Hret. subst w res. rewrite bind_ok. simpl.
    rewrite Hparse, bind_tell. simpl. by rewrite app_nil_r. }
  unfold main. cbv zeta. rewrite <- Hlevel, Hdiv. unfold lift.
  rewrite bind_ok, Hrun. done.
Qed.
End MainMore.

Lemma other_exception_ends_the_run_example :
  let soup :=
    document [element "head" None None;
              element "style" None
                (Some (lit "@media x{a{b:c}} !bad{} p{x:y}"))] in
  written (main any_selector matches_by_name picky_parser (demo_args false)
             soup) = Raise DOMException
  ∧ diagnostics (main any_selector matches_by_name picky_parser
                   (demo_args false) soup) = [lit "ERROR"].
Proof.
  intros soup.
  refine (other_exception_ends_the_run any_selector matches_by_name
            picky_parser (demo_args false) soup
            [lit "@media x{a{b:c}"] [lit "p{x:y}"] (lit "!bad{}")
            DOMException [lit "ERROR"] eq_refl _ eq_refl).
  apply List.Forall_cons; [intros e; vm_compute; discriminate|].
  apply List.Forall_nil.
Defined.

(** * Further properties of the Inline Applier *)

Lemma rstrip_by_app_guard (p : char → bool) (a b : str) (x : char) :
  p x = false → rstrip_by p (a ++ x :: b) = a ++ x :: rstrip_by p b.
Proof.
  intros Hx. induction a as [|c a IH]; simpl.
  - destruct (rstrip_by p b); [by rewrite Hx|done].
  - rewrite IH. by destruct a.
Qed.

Lemma rstrip_semicolon_after_separator (existing candidate : str) :
  rstrip_semicolon (existing ++ lit "; " ++ candidate)
  = existing ++ lit "; " ++ rstrip_semicolon candidate.
Proof.
  unfold rstrip_semicolon.
  change (existing ++ lit "; " ++ candidate)
    with (existing ++ [SEMICOLON] ++ SPACE :: candidate).
  rewrite app_assoc, rstrip_by_app_guard by reflexivity.
  by rewrite <- app_assoc.
Qed.

Lemma new_style_attr_truthy (value : attr_value) (inline_style : str) :
  truthy (Some value) = true →
  new_style_attr (Some value) inline_style
  = existing_text value ++ lit "; " ++ rstrip_semicolon inline_style.
Proof.
  intros Htruthy. unfold new_style_attr. rewrite Htruthy. simpl.
  destruct value as [s|tokens]; simpl.
  - apply rstrip_semicolon_after_separator.
  - rewrite join_snoc. destruct tokens as [|t tokens]; [done|].
    apply rstrip_semicolon_after_separator.
Qed.

(** The value of a present, non-empty [style] attribute is kept as it
    is, trailing semicolons included, and is followed by [; ] and the
    candidate without its trailing semicolons: also when the candidate is
    empty, and also for every later candidate. *)
Theorem new_style_attr_keeps_existing_text
    (value : attr_value) (inline_style : str) :
  truthy (Some value) = true →
  new_style_attr (Some value) inline_style
  = existing_text value ++ lit "; " ++ rstrip_semicolon inline_style
  ∧ truthy (Some (AttrStr (new_style_attr (Some value) inline_style))) = true.
Proof.
  intros Htruthy. rewrite new_style_attr_truthy by done. split; [done|].
  simpl. unfold str_eqb. rewrite bool_decide_eq_false_2; [done|].
  intros Heq. apply app_eq_nil in Heq as [_ Heq]. discriminate.
Qed.

Lemma new_style_attr_keeps_existing_text_example :
  new_style_attr (Some (AttrStr (lit "color:red;"))) (lit "margin:0;")
  = lit "color:red;; margin:0"
  ∧ new_style_attr (Some (AttrStr (lit "color:red"))) []
    = lit "color:red; ".
Proof.
  split.
  - exact (proj1 (new_style_attr_keeps_existing_text
                    (AttrStr (lit "color:red;")) (lit "margin:0;") eq_refl)).
  - exact (proj1 (new_style_attr_keeps_existing_text
                    (AttrStr (lit "color:red")) [] eq_refl)).
Defined.

(** Whatever the attribute was, the new value does not end in a
    semicolon. *)
Theorem new_style_attr_has_no_trailing_semicolon
    (previous_style_attr : option attr_value) (inline_style : str) :
  ¬ ∃ init, new_style_attr previous_style_attr inline_style
            = init ++ [SEMICOLON].
Proof.
  destruct (truthy previous_style_attr) eqn:Htruthy.
  - destruct previous_style_attr as [value|]; [|done].
    rewrite new_style_attr_truthy by done.
    destruct (rstrip_semicolon_spec inline_style) as [_ Hend].
    intros [init Heq]. rewrite !app_assoc in Heq.
    destruct (rstrip_semicolon inline_style) as [|c rest] eqn:Hr
      using rev_ind.
    + rewrite app_nil_r in Heq.
      change (existing_text value ++ lit "; ")
        with (existing_text value ++ [SEMICOLON] ++ [SPACE]) in Heq.
      rewrite app_assoc in Heq. by apply app_inj_tail in Heq as [_ ?].
    + rewrite app_assoc in Heq. apply app_inj_tail in Heq as [_ ->].
      apply Hend. by eexists.
  - unfold new_style_attr. rewrite Htruthy. simpl.
    apply rstrip_semicolon_spec.
Qed.

(** Two candidates given one after the other to an element without
    [style] attribute end up in that order, separated by [; ]; a first
    candidate of semicolons only leaves nothing behind. *)
Theorem styles_accumulate_in_order (first second : str) :
  new_style_attr (Some (AttrStr (new_style_attr None first))) second
  = if bool_decide (rstrip_semicolon first = []) then rstrip_semicolon second
    else rstrip_semicolon first ++ lit "; " ++ rstrip_semicolon second.
Proof.
  change (new_style_attr None first) with (rstrip_semicolon first).
  case_bool_decide as Hfirst.
  - by rewrite Hfirst.
  - apply (new_style_attr_truthy (AttrStr _)). simpl.
    unfold str_eqb. by rewrite bool_decide_eq_false_2.
Qed.

Section InlineApplierMore.
Context {Node : Type}.
Variable selector_ok : str → bool.
Variable matches : str → BeautifulSoup Node → nat → bool.
Implicit Types soup : BeautifulSoup Node.

Lemma restyled_refl (tag : Tag Node) : restyled tag tag.
Proof. unfold restyled. tauto. Qed.

Lemma restyled_trans (t1 t2 t3 : Tag Node) :
  restyled t1 t2 → restyled t2 t3 → restyled t1 t3.
Proof.
  unfold restyled. intros (-> & -> & -> & H12) (-> & -> & -> & H23).
  repeat split; [done..|]. destruct H23 as [->|?]; [done|by right].
Qed.

Lemma Forall2_restyled_refl (l : list (Tag Node)) : Forall2 restyled l l.
Proof. induction l; constructor; [apply restyled_refl|done]. Qed.

Lemma Forall2_restyled_trans (l1 l2 l3 : list (Tag Node)) :
  Forall2 restyled l1 l2 → Forall2 restyled l2 l3 → Forall2 restyled l1 l3.
Proof.
  intros H12. revert l3. induction H12 as [|t1 t2 l1 l2 Ht _ IH];
    intros l3 H23; inversion H23; subst; constructor.
  - by eapply restyled_trans.
  - by apply IH.
Qed.

Lemma apply_to_item_restyled inline_style soup i :
  Forall2 restyled (tags soup) (tags (apply_to_item inline_style soup i))
  ∧ head_appended (apply_to_item inline_style soup i) = head_appended soup.
Proof.
  unfold apply_to_item. destruct (tags soup !! i) as [item|] eqn:Hi; simpl.
  - split; [|done]. rewrite <- (list_insert_id (tags soup) i item Hi) at 1.
    apply Forall2_insert; [apply Forall2_restyled_refl|].
    unfold restyled. simpl. repeat split; [done..|]. right. by eexists.
  - split; [apply Forall2_restyled_refl|done].
Qed.

Lemma fold_apply_to_item_restyled inline_style (found : list nat) soup :
  Forall2 restyled (tags soup)
    (tags (fold_left (apply_to_item inline_style) found soup))
  ∧ head_appended (fold_left (apply_to_item inline_style) found soup)
    = head_appended soup.
Proof.
  revert soup. induction found as [|i found IH]; intros soup; simpl.
  - split; [apply Forall2_restyled_refl|done].
  - destruct (IH (apply_to_item inline_style soup i)) as [Ht Hh].
    destruct (apply_to_item_restyled inline_style soup i) as [Ht' Hh'].
    split; [by eapply Forall2_restyled_trans|congruence].
Qed.

Lemma apply_selectors_restyled (selectors : list str) inline_style soup soup' :
  apply_selectors_to_elements_as_inline_css selector_ok matches soup
    selectors inline_style = Ok soup' →
  Forall2 restyled (tags soup) (tags soup')
  ∧ head_appended soup' = head_appended soup.
Proof.
  revert soup. induction selectors as [|selector rest IH]; intros soup; simpl.
  - intros [= <-]. split; [apply Forall2_restyled_refl|done].
  - destruct (select selector_ok matches soup selector) as [found|];
      simpl; [|done].
    intros Hrest. destruct (IH _ Hrest) as [Ht Hh].
    destruct (fold_apply_to_item_restyled inline_style found soup)
      as [Ht' Hh'].
    split; [by eapply Forall2_restyled_trans|congruence].
Qed.

Lemma apply_selectors_accepted (selectors : list str) inline_style soup :
  Forall (fun s => selector_ok s = true) selectors →
  ∃ soup',
    apply_selectors_to_elements_as_inline_css selector_ok matches soup
      selectors inline_style = Ok soup'.
Proof.
  intros Hok. revert soup.
  induction Hok as [|s rest Hs _ IH]; intros soup; simpl; [by eexists|].
  unfold select. rewrite Hs. simpl. apply IH.
Qed.

(** The Inline Applier returns exactly when the selector engine accepts
    every selector it is given; otherwise the selector engine's exception
    ends it, also when earlier selectors were applied. *)
Theorem apply_selectors_returns_iff
    (selectors : list str) (inline_style : str) soup :
  ((∃ soup',
      apply_selectors_to_elements_as_inline_css selector_ok matches soup
        selectors inline_style = Ok soup')
   ↔ Forall (fun s => selector_ok s = true) selectors)
  ∧ (∀ e,
       apply_selectors_to_elements_as_inline_css selector_ok matches soup
         selectors inline_style = Raise e →
       e = SelectorSyntaxError).
Proof.
  split; [split; [|apply apply_selectors_accepted]|].
  - revert soup. induction selectors as [|s rest IH]; intros soup;
      [constructor|]. simpl. unfold select.
    destruct (selector_ok s) eqn:Hs; simpl; [|by intros [? ?]].
    intros Hrest. constructor; [done|]. by eapply IH.
  - revert soup. induction selectors as [|s rest IH]; intros soup e;
      [done|]. simpl. unfold select.
    destruct (selector_ok s); simpl; [apply IH|]. by intros [= <-].
Qed.

(** Inlining a group changes nothing but [style] attributes: the
    document keeps its elements with their names, strings and payloads,
    in order; a [style] attribute is left as it was or becomes a string,
    never absent; nothing is appended to the head. *)
Theorem inline_applier_changes_styles_only
    (selectors : list str) (inline_style : str) soup soup' :
  apply_selectors_to_elements_as_inline_css selector_ok matches soup
    selectors inline_style = Ok soup' →
  Forall2 restyled (tags soup) (tags soup')
  ∧ length (tags soup') = length (tags soup)
  ∧ head_appended soup' = head_appended soup
  ∧ (∀ i tag tag',
       tags soup !! i = Some tag → tags soup' !! i = Some tag' →
       style tag ≠ None → style tag' ≠ None).
Proof.
  intros Hrun. destruct (apply_selectors_restyled _ _ _ _ Hrun) as [Ht Hh].
  split; [done|]. split; [symmetry; by eapply Forall2_length|].
  split; [done|]. intros i tag tag' Hi Hi' Hstyle.
  destruct (Forall2_lookup_lr _ _ _ _ _ _ Ht Hi Hi')
    as (_ & _ & _ & [-> | [value ->]]); done.
Qed.
End InlineApplierMore.

Lemma apply_selectors_returns_iff_example :
  ∃ soup',
    apply_selectors_to_elements_as_inline_css any_selector matches_by_name
      (document [element "p" None None]) [lit "p"; lit "q"] (lit "a:b;")
    = Ok soup'.
Proof.
  refine (proj2 (proj1 (apply_selectors_returns_iff any_selector
            matches_by_name [lit "p"; lit "q"] (lit "a:b;")
            (document [element "p" None None]))) _).
  repeat (apply List.Forall_cons; [reflexivity|]). apply List.Forall_nil.
Defined.

Lemma inline_applier_changes_styles_only_example :
  let soup :=
    document [element "p" None (Some (lit "x"));
              element "q" (Some (AttrList [lit "u"])) None] in
  let soup' :=
    document [element "p" (Some (AttrStr (lit "a:b"))) (Some (lit "x"));
              element "q" (Some (AttrList [lit "u"])) None] in
  Forall2 restyled (tags soup) (tags soup').
Proof.
  intros soup soup'.
  exact (proj1 (inline_applier_changes_styles_only any_selector
           matches_by_name [lit "p"] (lit "a:b;") soup soup' eq_refl)).
Defined.

(** * Further properties of the Selector Resolver and of the run *)

Section DictSetMore.
Context {K V : Type} `{EqDecision K}.
Implicit Types d : dict K V.

Lemma dict_get_set k v k' d :
  dict_get k' (dict_set k v d)
  = if decide (k' = k) then Some v else dict_get k' d.
Proof.
  induction d as [|[k0 v0] d IH]; simpl.
  - by destruct (decide (k' = k)).
  - destruct (decide (k = k0)) as [->|Hk]; simpl.
    + by destruct (decide (k' = k0)).
    + destruct (decide (k' = k0)) as [->|Hk0].
      * by destruct (decide (k0 = k)); [congruence|].
      * exact IH.
Qed.

Lemma dict_keys_set k v d :
  dict_keys (dict_set k v d)
  = if bool_decide (k ∈ dict_keys d) then dict_keys d else dict_keys d ++ [k].
Proof.
  induction d as [|[k0 v0] d IH]; simpl; [done|].
  destruct (decide (k = k0)) as [->|Hk]; simpl.
  - rewrite bool_decide_eq_true_2; [done|set_solver].
  - rewrite IH. destruct (bool_decide (k ∈ dict_keys d)) eqn:Hin.
    + rewrite bool_decide_eq_true_2; [done|].
      apply bool_decide_eq_true in Hin. set_solver.
    + rewrite bool_decide_eq_false_2; [done|].
      apply bool_decide_eq_false in Hin. set_solver.
Qed.
End DictSetMore.

(** The Selector Resolver keeps one entry for each group, and the inline
    style of a group is that of the last entry of the record whose key
    gives the group: when two keys differ only in the blanks around
    their commas, the declarations of the earlier one are gone. *)
Theorem inline_css_declarations_last_wins
    (css_declarations : CssDict) (group : CssSelectors) :
  NoDup (dict_keys (inline_css_declarations css_declarations))
  ∧ dict_get group (inline_css_declarations css_declarations)
    = (fun entry => join [SPACE] (snd entry))
      <$> last (List.filter
                  (fun entry =>
                     bool_decide (split_selectors_of (fst entry) = group))
                  css_declarations).
Proof.
  induction css_declarations as [|[k ds] d [Hnd Hget]] using rev_ind;
    [split; [constructor|done]|].
  rewrite inline_css_declarations_snoc. split.
  - rewrite dict_keys_set. case_bool_decide as Hin; [done|].
    apply NoDup_app. split; [done|]. split; [|apply NoDup_singleton].
    intros x Hx ->%list_elem_of_singleton. done.
  - rewrite dict_get_set, List.filter_app. simpl.
    fold (split_selectors_of k). destruct (decide (group = _)) as [->|Hne].
    + rewrite bool_decide_eq_true_2 by done. by rewrite last_snoc.
    + rewrite bool_decide_eq_false_2 by done. by rewrite app_nil_r.
Qed.

Section MainOutcome.
Context {Node : Type}.
Variable selector_ok : str → bool.
Variable matches : str → BeautifulSoup Node → nat → bool.
Implicit Types soup : BeautifulSoup Node.

Lemma resolve_group_pseudo soup pseudo entry soup' pseudo' :
  resolve_group selector_ok matches (soup, pseudo) entry
  = Ok (soup', pseudo') →
  pseudo'
  = dict_setdefault (pseudo_selectors_of (fst entry)) (snd entry) pseudo.
Proof.
  destruct entry as [selectors inline_style]. unfold resolve_group. simpl.
  destruct (no_pseudo_selectors_of selectors); [by intros [= _ <-]|].
  destruct (apply_selectors_to_elements_as_inline_css _ _ _ _ _); simpl;
    [|done].
  by intros [= _ <-].
Qed.

Lemma resolve_groups_pseudo (groups : InlineCssDict) soup pseudo soup' pseudo'
    (p : CssSelectors) :
  resolve_groups selector_ok matches groups (soup, pseudo)
  = Ok (soup', pseudo') →
  dict_get p pseudo'
  = match dict_get p pseudo with
    | Some inline_style => Some inline_style
    | None =>
        snd <$> head (List.filter
                        (fun g => bool_decide (pseudo_selectors_of (fst g) = p))
                        groups)
    end.
Proof.
  revert soup pseudo. induction groups as [|entry rest IH];
    intros soup pseudo; cbn [resolve_groups].
  - intros [= _ <-]. by destruct (dict_get p pseudo).
  - destruct (resolve_group selector_ok matches (soup, pseudo) entry)
      as [[soup1 pseudo1]|] eqn:Hstep; simpl; [|done].
    intros Hrest. rewrite (IH _ _ Hrest).
    apply resolve_group_pseudo in Hstep. subst pseudo1.
    rewrite dict_get_setdefault. destruct (dict_get p pseudo); [done|].
    destruct (decide (p = pseudo_selectors_of (fst entry))) as [->|Hne].
    + by rewrite bool_decide_eq_true_2.
    + by rewrite bool_decide_eq_false_2.
Qed.

(** Among the groups with the same pseudo selectors, the first one gives
    the inline style kept in [pseudo_style_declarations]; the groups
    without pseudo selector are kept there too, under the empty tuple. *)
Theorem pseudo_style_declarations_first_wins
    (groups : InlineCssDict) soup soup'
    (pseudo_style_declarations : dict CssSelectors CssInlineStyleDefinition)
    (pseudo_selectors : CssSelectors) :
  resolve_groups selector_ok matches groups (soup, [])
  = Ok (soup', pseudo_style_declarations) →
  dict_get pseudo_selectors pseudo_style_declarations
  = snd <$> head (List.filter
                    (fun g =>
                       bool_decide
                         (pseudo_selectors_of (fst g) = pseudo_selectors))
                    groups).
Proof. intros Hrun. by rewrite (resolve_groups_pseudo _ _ _ _ _ _ Hrun). Qed.

Lemma resolve_group_restyled soup pseudo entry soup' pseudo' :
  resolve_group selector_ok matches (soup, pseudo) entry
  = Ok (soup', pseudo') →
  Forall2 restyled (tags soup) (tags soup').
Proof.
  destruct entry as [selectors inline_style]. unfold resolve_group.
  destruct (no_pseudo_selectors_of selectors) as [|s plain].
  - intros [= <- _]. apply Forall2_restyled_refl.
  - destruct (apply_selectors_to_elements_as_inline_css _ _ _ _ _)
      as [soup1|] eqn:Happly; simpl; [|done].
    intros [= <- _]. by destruct (apply_selectors_restyled _ _ _ _ _ _ Happly).
Qed.

Lemma resolve_groups_restyled (groups : InlineCssDict) soup pseudo
    soup' pseudo' :
  resolve_groups selector_ok matches groups (soup, pseudo)
  = Ok (soup', pseudo') →
  Forall2 restyled (tags soup) (tags soup').
Proof.
  revert soup pseudo. induction groups as [|entry rest IH];
    intros soup pseudo; cbn [resolve_groups].
  - intros [= <- _]. apply Forall2_restyled_refl.
  - destruct (resolve_group selector_ok matches (soup, pseudo) entry)
      as [[soup1 pseudo1]|] eqn:Hstep; simpl; [|done].
    intros Hrest. eapply Forall2_restyled_trans; [|by eapply IH].
    by eapply resolve_group_restyled.
Qed.

Lemma filter_restyled (tag_name : string) (l l' : list (Tag Node)) :
  Forall2 restyled l l' →
  Forall2 restyled
    (List.filter (fun tag => negb (is_named tag_name tag)) l)
    (List.filter (fun tag => negb (is_named tag_name tag)) l').
Proof.
  induction 1 as [|t t' l l' Ht _ IH]; simpl; [constructor|].
  assert (is_named tag_name t' = is_named tag_name t) as ->.
  { unfold is_named. by destruct Ht as (-> & _). }
  destruct (is_named tag_name t); simpl; [done|by constructor].
Qed.

(** Of the elements of the input, the document written holds none that
    is named [style] and all the others, in order, with their names and
    with a [style] attribute that is as it was or a string.  The one
    element the run adds is the style block appended to the head, when
    there is a head: the written tree then holds this [style] element,
    and without a head it holds none from the run. *)
Theorem main_removes_style_elements_only
    (parser : CSSParser) (args : InlineCSSArgs) soup
    (path : str) (out : BeautifulSoup Node) :
  written (main selector_ok matches parser args soup) = Ok (path, out) →
  path = output_html args
  ∧ Forall (fun tag => is_named "style" tag = false) (tags out)
  ∧ Forall2
      (fun tag tag' =>
         name tag' = name tag
         ∧ (style tag' = style tag
            ∨ ∃ value, style tag' = Some (AttrStr value)))
      (List.filter (fun tag => negb (is_named "style" tag)) (tags soup))
      (tags out)
  ∧ ∃ block,
      head_appended out
      = head_appended soup ++ (if has_head soup then [block] else [])
      ∧ length (head_appended out)
        = (length (head_appended soup)
           + (if has_head soup then 1 else 0))%nat.
Proof.
  rewrite main_written.
  destruct (divide_declarations_from_style_tags _); simpl; [|done].
  destruct (snd (process_css_declarations _ _ _)) as [p|]; simpl; [|done].
  destruct (resolve_groups _ _ _ _) as [[soup1 pseudo]|] eqn:Hloop;
    simpl; [|done].
  intros [= <- <-]. split; [done|].
  assert (Htags : tags (insert_unprocessed_declarations
                          (_remove_style_tags_from_soup soup1)
                          (failed_declaration p))
                  = List.filter (fun tag => negb (is_named "style" tag))
                      (tags soup1)).
  { unfold insert_unprocessed_declarations. by destruct (has_head _). }
  rewrite Htags. split; [|split].
  - apply Forall_forall. intros tag [_ Hn]%list_elem_of_In%filter_In.
    by apply negb_true_iff.
  - eapply Forall2_impl.
    + apply filter_restyled. by eapply resolve_groups_restyled.
    + intros tag tag' (Hn & _ & _ & Hs). by split.
  - destruct (resolve_groups_frame _ _ _ _ _ _ _ Hloop) as [Hnames Happ].
    exists (failed_declaration p). unfold insert_unprocessed_declarations.
    rewrite has_head_without_style_tags, (has_head_by_names _ _ Hnames).
    destruct (has_head soup); simpl; rewrite Happ.
    + split; [done|]. by rewrite length_app.
    + rewrite app_nil_r. split; [done|lia].
Qed.


End MainOutcome.

Lemma pseudo_style_declarations_first_wins_example :
  let groups :=
    [([lit "a"; lit "b:hover"], lit "x:y;"); ([lit "b:hover"], lit "z:w;");
     ([lit "p"], lit "m:n;")] in
  ∃ pseudo_style_declarations,
    result_map snd
      (resolve_groups any_selector matches_by_name groups
         (document [element "a" None None], []))
    = Ok pseudo_style_declarations
    ∧ dict_get [lit "b:hover"] pseudo_style_declarations = Some (lit "x:y;")
    ∧ dict_get [] pseudo_style_declarations = Some (lit "m:n;").
Proof.
  intros groups.
  destruct (resolve_groups any_selector matches_by_name groups
              (document [element "a" None None], []))
    as [[soup' pseudo_style_declarations]|] eqn:Hrun;
    [|vm_compute in Hrun; discriminate].
  exists pseudo_style_declarations. split; [reflexivity|]. split.
  - exact (pseudo_style_declarations_first_wins any_selector matches_by_name
             groups _ soup' pseudo_style_declarations [lit "b:hover"] Hrun).
  - exact (pseudo_style_declarations_first_wins any_selector matches_by_name
             groups _ soup' pseudo_style_declarations [] Hrun).
Defined.

Lemma main_removes_style_elements_only_example :
  let soup :=
    document [element "head" None None;
              element "style" None (Some (lit "p{x:y} junk"));
              element "p" None None;
              element "style" None (Some (lit "q{z:w}"))] in
  ∃ out,
    written (main any_selector matches_by_name demo_parser (demo_args true)
               soup) = Ok (lit "out.html", out)
    ∧ Forall (fun tag => is_named "style" tag = false) (tags out)
    ∧ length (tags out) = 2%nat
    ∧ length (head_appended out) = 1%nat.
Proof.
  intros soup.
  destruct (written (main any_selector matches_by_name demo_parser
                       (demo_args true) soup)) as [[path out]|] eqn:Hrun;
    [|vm_compute in Hrun; discriminate].
  destruct (main_removes_style_elements_only any_selector matches_by_name
              demo_parser (demo_args true) soup path out Hrun)
    as (-> & Hnone & Hkept & block & _ & Hlen).
  exists out. split; [done|]. split; [done|]. split; [|exact Hlen].
  symmetry. exact (Forall2_length _ _ _ Hkept).
Defined.



(** * The Inline Applier, element by element *)

Section PerElement.
Context {Node : Type}.
Variable selector_ok : str → bool.
Variable matches : str → BeautifulSoup Node → nat → bool.
Implicit Types soup : BeautifulSoup Node.

Lemma select_members soup selector found j :
  select selector_ok matches soup selector = Ok found →
  j ∈ found ↔ (j < length (tags soup))%nat ∧ matches selector soup j = true.
Proof.
  unfold select. destruct (selector_ok selector); [|done]. intros [= <-].
  rewrite list_elem_of_In, filter_In, in_seq. split.
  - intros [[_ ?] ?]. by split.
  - intros [? ?]. split; [lia|done].
Qed.

(** When the selectors of a group match an element or not whatever the
    [style] attributes of the document are, the element is given the
    candidate once for each selector of the group that matches it: not
    at all when none does, twice when two do. *)
Theorem element_is_styled_once_per_matching_selector
    (selectors : list str) (inline_style : str) soup soup'
    (j : nat) (item : Tag Node) (hits : str → bool) :
  apply_selectors_to_elements_as_inline_css selector_ok matches soup
    selectors inline_style = Ok soup' →
  tags soup !! j = Some item →
  (∀ s soup0,
     s ∈ selectors → Forall2 restyled (tags soup) (tags soup0) →
     matches s soup0 j = hits s) →
  ∃ item',
    tags soup' !! j = Some item' ∧ restyled item item'
    ∧ style item'
      = Nat.iter (length (List.filter hits selectors))
          (fun previous_style_attr =>
             Some (AttrStr (new_style_attr previous_style_attr inline_style)))
          (style item).
Proof.
  revert soup item. induction selectors as [|s rest IH];
    intros soup item Hrun Hitem Hhits.
  - injection Hrun as <-. exists item. split; [done|].
    split; [apply restyled_refl|done].
  - simpl in Hrun.
    destruct (select selector_ok matches soup s) as [found|] eqn:Hsel;
      simpl in Hrun; [|done].
    pose proof (fold_apply_to_item_restyled inline_style found soup)
      as [Hframe _].
    pose proof (fold_apply_to_item_lookup selector_ok matches inline_style
                  found soup j
                  (select_NoDup _ _ _ _ _ Hsel)) as Hlookup.
    rewrite Hitem in Hlookup. simpl in Hlookup.
    assert (Hj : bool_decide (j ∈ found) = hits s).
    { rewrite <- (Hhits s soup); [|set_solver|apply Forall2_restyled_refl].
      destruct (matches s soup j) eqn:Hm.
      - apply bool_decide_eq_true. apply (select_members _ _ _ _ Hsel).
        split; [by eapply lookup_lt_Some|done].
      - apply bool_decide_eq_false. intros Hin.
        apply (select_members _ _ _ _ Hsel) in Hin as [_ ?]. congruence. }
    rewrite Hj in Hlookup.
    assert (Hrest : ∀ s0 soup0, s0 ∈ rest →
      Forall2 restyled
        (tags (fold_left (apply_to_item inline_style) found soup))
        (tags soup0) →
      matches s0 soup0 j = hits s0).
    { intros s0 soup0 Hs0 Hr. apply Hhits; [set_solver|].
      by eapply Forall2_restyled_trans. }
    destruct (hits s) eqn:Hs.
    + destruct (IH _ _ Hrun Hlookup Hrest) as (item' & Hi' & Hr' & Hstyle).
      exists item'. split; [done|]. split.
      * eapply restyled_trans; [|exact Hr']. unfold restyled. simpl.
        repeat split; [done..|]. right. by eexists.
      * simpl. rewrite Hs. simpl. rewrite Hstyle. simpl.
        exact (Nat.iter_swap _ _ _ (style item)).
    + destruct (IH _ _ Hrun Hlookup Hrest) as (item' & Hi' & Hr' & Hstyle).
      exists item'. split; [done|]. split; [done|].
      simpl. by rewrite Hs.
Qed.
End PerElement.

Lemma matches_by_name_restyled (selector : str) (soup soup0 : BeautifulSoup unit)
    (j : nat) :
  Forall2 restyled (tags soup) (tags soup0) →
  matches_by_name selector soup0 j = matches_by_name selector soup j.
Proof.
  intros Hr. unfold matches_by_name.
  destruct (tags soup !! j) as [tag|] eqn:Hj.
  - destruct (Forall2_lookup_l _ _ _ _ _ Hr Hj) as (tag' & -> & Hn & _).
    by rewrite Hn.
  - rewrite (proj2 (lookup_ge_None _ _)); [done|].
    rewrite <- (Forall2_length _ _ _ Hr). by apply lookup_ge_None.
Qed.

Lemma element_is_styled_once_per_matching_selector_example :
  let soup := document [element "p" None None; element "q" None None] in
  ∃ soup' item',
    apply_selectors_to_elements_as_inline_css any_selector matches_by_name
      soup [lit "p"; lit "q"; lit "p"] (lit "a:b;") = Ok soup'
    ∧ tags soup' !! 0%nat = Some item'
    ∧ style item' = Some (AttrStr (lit "a:b; a:b")).
Proof.
  intros soup.
  destruct (apply_selectors_to_elements_as_inline_css any_selector
              matches_by_name soup [lit "p"; lit "q"; lit "p"] (lit "a:b;"))
    as [soup'|] eqn:Hrun; [|vm_compute in Hrun; discriminate].
  destruct (element_is_styled_once_per_matching_selector any_selector
              matches_by_name [lit "p"; lit "q"; lit "p"] (lit "a:b;")
              soup soup' 0%nat (element "p" None None)
              (fun s => str_eqb (lit "p") s) Hrun eq_refl)
    as (item' & Hitem' & _ & Hstyle).
  { intros s soup0 _ Hr. by rewrite (matches_by_name_restyled s soup soup0). }
  exists soup', item'. by split.
Defined.

Lemma format_css_content_for_inline_empty_iff_example :
  format_css_content_for_inline (lit "  ") = []
  ∧ ∃ init, format_css_content_for_inline (lit " a:b ") = init ++ [SEMICOLON].
Proof.
  split.
  - exact (proj2 (proj1 (format_css_content_for_inline_empty_iff (lit "  ")))
             eq_refl).
  - exact (proj2 (format_css_content_for_inline_empty_iff (lit " a:b "))
             eq_refl).
Defined.
